(** * check-translations: a shallow embedding of [main.py]

    The program validates the translation files of a language directory
    against the reference file [en_us.json].  This development embeds every
    function of [main.py] and proves the properties of its checks.

    Conventions of the embedding:
    - a language file is a flat JSON object whose values are strings, and
      the file of exemptions maps a language code to a list of keys;
    - a Python [str] is a [string] holding its UTF-8 bytes (equality and
      substring tests agree with the code-point ones, UTF-8 being
      self-synchronising);
    - a Python [dict] is an association list in insertion order, since the
      order of the keys is what [check_order_of_strings] compares;
    - a Python [set] of strings is a [gset string]; the order in which a set
      is iterated is not fixed by the language (it follows the string hashes,
      which CPython seeds per process), so it is a parameter of every run:
      the [hash_seed];
    - [gh_summary] appends one entry to the report; exceptions end the run. *)

From Stdlib Require Import Ascii SpecFloat.
From stdpp Require Import base list sorting gmap strings pretty.

(** ** Strings *)

Module Str.

(** [needle in hay] of Python: does [needle] occur as a substring. *)
Fixpoint contains (needle hay : string) : bool :=
  String.prefix needle hay ||
  match hay with
  | EmptyString => false
  | String _ hay' => contains needle hay'
  end.

(** [s.removesuffix(suffix)]. *)
Definition removesuffix (suffix s : string) : string :=
  let n := (String.length s - String.length suffix)%nat in
  if decide ((String.length suffix ≤ String.length s)%nat
             ∧ String.substring n (String.length suffix) s = suffix)
  then String.substring 0 n s else s.

(** The ASCII part of [s.lower()]. *)
Definition lower_ascii (c : Ascii.ascii) : Ascii.ascii :=
  let n := Ascii.nat_of_ascii c in
  if decide (65 ≤ n ≤ 90)%nat then Ascii.ascii_of_nat (n + 32)%nat else c.

Fixpoint lower (s : string) : string :=
  match s with
  | EmptyString => EmptyString
  | String c s' => String (lower_ascii c) (lower s')
  end.

End Str.

(** ** Dictionaries *)

Module Dict.

(** A [dict] with string keys: the items in insertion order.  Python keeps
    the keys distinct, which is [wf]. *)
Definition t (V : Type) : Type := list (string * V).

Definition keys {V} (d : t V) : list string := d.*1.

Definition wf {V} (d : t V) : Prop := NoDup (keys d).

(** [d[k]], with [None] where Python raises [KeyError]. *)
Fixpoint get {V} (d : t V) (k : string) : option V :=
  match d with
  | [] => None
  | (k', v) :: d' => if decide (k' = k) then Some v else get d' k
  end.

(** [d[k] = v]: an existing key keeps its position. *)
Fixpoint set {V} (d : t V) (k : string) (v : V) : t V :=
  match d with
  | [] => [(k, v)]
  | (k', v') :: d' =>
      if decide (k' = k) then (k', v) :: d' else (k', v') :: set d' k v
  end.

(** [d.pop(k, None)]. *)
Definition pop {V} (d : t V) (k : string) : t V :=
  filter (λ kv, kv.1 ≠ k) (d : list (string * V)).

End Dict.

Abbreviation dict := (Dict.t string).

(** ** Exceptions and the report *)

Inductive exn : Type :=
  | Exception (msg : string)
  | KeyError (key : string)
  | ZeroDivisionError
  | FileNotFoundError (name : string)
  | JSONDecodeError (name : string).

Global Instance exn_eq_dec : EqDecision exn.
Proof. solve_decision. Defined.

(** A computation appends entries to the report and then either raises or
    returns.  [print] and the summary file of [gh_summary] receive the same
    entries, so one list stands for both. *)
Definition IO (A : Type) : Type := list string * (exn + A).

Definition report {A} (m : IO A) : list string := m.1.
Definition outcome {A} (m : IO A) : exn + A := m.2.

Global Instance IO_ret : MRet IO := λ A a, ([], inr a).

Global Instance IO_bind : MBind IO := λ A B f m,
  match m.2 with
  | inl e => (m.1, inl e)
  | inr a => (m.1 ++ (f a).1, (f a).2)
  end.

Definition raise {A} (e : exn) : IO A := ([], inl e).

(** [gh_summary(summary)]. *)
Definition gh_summary (summary : string) : IO unit := ([summary], inr ()).

(** [for x in l: body], the loop's variables threaded through as [s]. *)
Fixpoint for_in {A S} (l : list A) (body : A → S → IO S) (s : S) : IO S :=
  match l with
  | [] => mret s
  | x :: l' => s' ← body x s; for_in l' body s'
  end.

(** [for x in l: body] for a body that assigns no variable. *)
Definition for_each {A} (l : list A) (body : A → IO unit) : IO unit :=
  for_in l (λ x _, body x) ().

(** ** Files *)

(** What reading a JSON file finds: no file, a text that is no JSON, or the
    table of a language file (of the file of exemptions).  A file with JSON
    of another shape, say a list, is not among the cases. *)
Inductive file (A : Type) : Type :=
  | Missing
  | Malformed
  | Content (a : A).
Global Arguments Missing {A}.
Global Arguments Malformed {A}.
Global Arguments Content {A} a.

(** [read_json_file(path)], for the file found at [name]. *)
Definition read_json_file {A} (name : string) (f : file A) : IO A :=
  match f with
  | Missing => raise (FileNotFoundError name)
  | Malformed => raise (JSONDecodeError name)
  | Content a => mret a
  end.

(** [d[key]] as an expression. *)
Definition getitem {V} (d : Dict.t V) (key : string) : IO V :=
  match Dict.get d key with
  | Some v => mret v
  | None => raise (KeyError key)
  end.

(** [s] between double quotes. *)
Definition quoted (s : string) : string :=
  String "034"%char (s +:+ String "034"%char EmptyString).

(** ** Floating point *)

(** The [float] of Python is IEEE 754 binary64, rounding to nearest even. *)
Module Float.

Definition prec : Z := 53.
Definition emax : Z := 1024.

(** [float(n)] for an [int]. *)
Definition of_int (n : Z) : spec_float := binary_normalize prec emax n 0 false.

Definition div : spec_float → spec_float → spec_float := SFdiv prec emax.
Definition mul : spec_float → spec_float → spec_float := SFmul prec emax.

(** [m * 2^e] rounded to an integer, ties to even. *)
Definition round_half_even (m e : Z) : Z :=
  if decide (0 ≤ e)%Z then (m * 2 ^ e)%Z
  else
    let d := (2 ^ (- e))%Z in
    let q := (m `div` d)%Z in
    let r := (m `mod` d)%Z in
    match (2 * r ?= d)%Z with
    | Lt => q
    | Gt => (q + 1)%Z
    | Eq => if Z.even q then q else (q + 1)%Z
    end.

Definition two_digits (n : Z) : string :=
  if decide (n < 10)%Z then "0" +:+ pretty n else pretty n.

(** [format(x, ".2f")]: the decimal with two fractional digits nearest
    to the exact value of [x]. *)
Definition format_2f (x : spec_float) : string :=
  match x with
  | S754_zero s => (if s then "-" else EmptyString) +:+ "0.00"
  | S754_infinity s => (if s then "-" else EmptyString) +:+ "inf"
  | S754_nan => "nan"
  | S754_finite s m e =>
      let h := round_half_even (100 * Z.pos m) e in
      (if s then "-" else EmptyString)
      +:+ pretty (h `div` 100)%Z +:+ "." +:+ two_digits (h `mod` 100)%Z
  end.

End Float.

(** [a / b] for two [int]s.  The quotient is the float nearest to the exact
    one; for operands below [2^53] (any [len] is) that is the quotient of
    their floats. *)
Definition true_divide (a b : nat) : IO spec_float :=
  if decide (b = 0%nat) then raise ZeroDivisionError
  else mret (Float.div (Float.of_int (Z.of_nat a)) (Float.of_int (Z.of_nat b))).

(** ** Sets and their iteration order *)

(** The order in which this run iterates over a set of strings: some
    arrangement of its elements, the same each time the run iterates over
    the set.  CPython lays a set out by the hashes of its elements, and the
    hash of a [str] depends on a seed drawn when the process starts.  The
    layout also follows the way the set was built; the embedding takes one
    order for each set of elements, which is what the two loops of
    [check_untranslated_strings] over one set object rely on. *)
Record hash_seed : Type := HashSeed {
  set_iter : gset string → list string;
  set_iter_perm : ∀ X, set_iter X ≡ₚ elements X;
}.

(** [if s:] and [len(s)]. *)
Definition set_nonempty (X : gset string) : bool := bool_decide (X ≠ ∅).

(** ** The checks *)

Section checks.
Context (seed : hash_seed).

(** [check_extra_keys(en_us, translations)]. *)
Definition check_extra_keys (en_us : dict) (translations : Dict.t dict)
    : IO unit :=
  extra_keys_found ←
    for_in translations (λ '(lang, data) extra_keys_found,
      let extra_keys : gset string :=
        list_to_set (Dict.keys data) ∖ list_to_set (Dict.keys en_us) in
      if set_nonempty extra_keys then
        gh_summary ("⚠ " +:+ lang
          +:+ ".json contains translations that don't exist in en_us.json ("
          +:+ pretty (size extra_keys) +:+ " found):");;
        for_each (set_iter seed extra_keys) (λ key,
          gh_summary ("- " +:+ key));;
        mret true
      else mret extra_keys_found) false;
  if extra_keys_found : bool then
    raise (Exception "Found extra keys in one or more translation files")
  else gh_summary "✅ No extra keys found".

(** [intentionally_untranslated.json]: language code to exempted keys. *)
Definition exempted (intentionally_untranslated : Dict.t (list string))
    (lang key : string) : bool :=
  match Dict.get intentionally_untranslated lang with
  | Some keys => bool_decide (key ∈ keys)
  | None => false
  end.

(** [check_untranslated_strings(en_us, translations)]; the file it reads
    is [exemptions]. *)
Definition check_untranslated_strings
    (exemptions : file (Dict.t (list string)))
    (en_us : dict) (translations : Dict.t dict) : IO unit :=
  intentionally_untranslated ←
    read_json_file "src/main/resources/intentionally_untranslated.json"
      exemptions;
  untranslated_strings_found ←
    for_in translations (λ '(lang, data) untranslated_strings_found,
      untranslated_strings ←
        for_in data (λ '(key, value) (untranslated_strings : gset string),
          en_value ← getitem en_us key;
          if decide (value = en_value) then
            if exempted intentionally_untranslated lang key
            then mret untranslated_strings
            else mret ({[key]} ∪ untranslated_strings)
          else mret untranslated_strings) ∅;
      if set_nonempty untranslated_strings then
        gh_summary ("⚠ " +:+ lang
          +:+ ".json contains strings that are identical to en_us.json ("
          +:+ pretty (size untranslated_strings) +:+ " found):");;
        for_each (set_iter seed untranslated_strings) (λ key,
          en_value ← getitem en_us key;
          gh_summary ("- " +:+ key +:+ ": " +:+ en_value));;
        gh_summary (String "010"%char
          "If this is intentional, add the affected key(s) to intentionally_untranslated.json:");;
        gh_summary "```json";;
        gh_summary ("  " +:+ quoted lang +:+ ": [");;
        for_each (set_iter seed untranslated_strings) (λ key,
          gh_summary ("    " +:+ quoted key));;
        gh_summary "  ]";;
        gh_summary "```";;
        mret true
      else mret untranslated_strings_found) false;
  if untranslated_strings_found : bool then
    raise (Exception
      "Found untranslated strings in one or more translation files")
  else gh_summary "✅ No accidentally untranslated strings found".

End checks.

(** [show_translation_stats(en_us, translations)]. *)
Definition show_translation_stats (en_us : dict) (translations : Dict.t dict)
    : IO unit :=
  gh_summary "| Language | Translated | % |";;
  gh_summary "| --- | --- | --- |";;
  gh_summary ("| en_us | " +:+ pretty (length en_us) +:+ " | 100.00% |");;
  for_each translations (λ '(lang, data),
    ratio ← true_divide (length data) (length en_us);
    gh_summary ("| " +:+ lang +:+ " | " +:+ pretty (length data) +:+ " | "
      +:+ Float.format_2f (Float.mul ratio (Float.of_int 100)) +:+ "% |"));;
  gh_summary EmptyString.

(** [check_order_of_strings(en_us, translations)]. *)
Definition check_order_of_strings (en_us : dict) (translations : Dict.t dict)
    : IO unit :=
  for_each translations (λ '(lang, data),
    let en_us_keys_present_in_translation :=
      filter (λ key, key ∈ Dict.keys data) (Dict.keys en_us) in
    let translation_keys_present_in_en_us :=
      filter (λ key, key ∈ Dict.keys en_us) (Dict.keys data) in
    if decide (en_us_keys_present_in_translation
               ≠ translation_keys_present_in_en_us)
    then raise (Exception ("⚠ The order of strings in " +:+ lang
                  +:+ ".json is different from en_us.json"))
    else mret ());;
  gh_summary "✅ The order of strings in each translation file matches en_us.json".

(** The table [known_typos], in the order it is written. *)
Definition known_typos : Dict.t string :=
  [ ("Anchoraura", "AnchorAura");
    ("Autobuild", "AutoBuild");
    ("Clickaura", "ClickAura");
    ("KillAura", "Killaura");
    ("LegitNuker", "Nuker");
    ("LegitKillaura", "KillauraLegit");
    ("Nofall", "NoFall");
    ("Triggerbot", "TriggerBot") ].

Definition boatfly_key : string := "description.wurst.hack.boatfly".
Definition radar_key : string := "description.wurst.hack.radar".

(** [key in data and test(data[key])]. *)
Definition has_value_with (data : dict) (key : string) (test : string → bool)
    : bool :=
  match Dict.get data key with
  | Some value => test value
  | None => false
  end.

(** The condition of the radar rule. *)
Definition radar_colors (value : string) : bool :=
  Str.contains "§cred§r" value
  || Str.contains "§agreen§r" value
  || Str.contains "§7gray§r" value.

(** A path that [lang_dir.rglob("*.json")] yields. *)
Record path : Type := Path {
  name : string;
  is_file : bool;
  contents : file dict;
}.

(** What the run finds on disk. *)
Record filesystem : Type := FileSystem {
  en_us_json : file dict;
  rglob_json : list path;
  intentionally_untranslated_json : file (Dict.t (list string));
}.

(** [sorted(paths, key=lambda x: x.name)]: a stable sort. *)
Fixpoint insert_by_name (p : path) (l : list path) : list path :=
  match l with
  | [] => [p]
  | q :: l' =>
      if String.leb (name p) (name q) then p :: q :: l'
      else q :: insert_by_name p l'
  end.

Definition sorted_by_name (l : list path) : list path :=
  foldr insert_by_name [] l.

(** The body of the loop of [main] over the sorted paths. *)
Definition load_translation (path : path) (translations : Dict.t dict)
    : IO (Dict.t dict) :=
  if is_file path && bool_decide (name path ≠ "en_us.json") then
    let lang := Str.removesuffix ".json" (name path) in
    data ← read_json_file (name path) (contents path);
    let data := Dict.pop data "language.name" in
    let data := Dict.pop data "language.region" in
    let data := Dict.pop data "language.code" in
    mret (Dict.set translations lang data)
  else mret translations.

(** The first part of [main]: the tables it loads. *)
Definition load_tables (fs : filesystem) : IO (dict * Dict.t dict) :=
  en_us ← read_json_file "en_us.json" (en_us_json fs);
  translations ← for_in (sorted_by_name (rglob_json fs)) load_translation [];
  mret (en_us, translations).

Section driver.
(** [str.lower] follows the Unicode tables of the interpreter. *)
Context (str_lower : string → string).

(** [check_known_issues(en_us, translations)]. *)
Definition check_known_issues (en_us : dict) (translations : Dict.t dict)
    : IO unit :=
  issues_found ←
    for_in translations (λ '(lang, data) issues_found,
      for_in data (λ '(key, value) issues_found,
        for_in known_typos (λ '(typo, correct) issues_found,
          if Str.contains typo value then
            gh_summary ("⚠ In " +:+ lang +:+ ".json string " +:+ key
              +:+ ", the word '" +:+ correct
              +:+ "' is incorrectly translated as '" +:+ typo +:+ "':");;
            gh_summary "```json";;
            gh_summary ("  " +:+ quoted key +:+ ": " +:+ quoted value);;
            gh_summary "```";;
            mret true
          else mret issues_found) issues_found) issues_found) false;
  issues_found ←
    for_in translations (λ '(lang, data) issues_found,
      issues_found ←
        (if has_value_with data boatfly_key
              (λ value, Str.contains "shift" (str_lower value))
         then
           gh_summary ("⚠ In " +:+ lang +:+ ".json, the translation for "
             +:+ boatfly_key
             +:+ " incorrectly suggests using the shift (sneak) key instead of ctrl (sprint) to descend");;
           mret true
         else mret issues_found);
      if has_value_with data radar_key radar_colors then
        gh_summary ("⚠ In " +:+ lang +:+ ".json, the translation for "
          +:+ radar_key +:+ " contains untranslated colors:");;
        gh_summary "```json";;
        radar_value ← getitem data radar_key;
        gh_summary ("  " +:+ quoted radar_key +:+ ": " +:+ quoted radar_value);;
        gh_summary "```";;
        mret true
      else mret issues_found) issues_found;
  if issues_found : bool then
    raise (Exception "Found known issues in one or more translation files")
  else gh_summary "✅ No known issues found in any translation files".

(** [main(lang_dir, wurst_mode)]. *)
Definition main (seed : hash_seed) (fs : filesystem) (wurst_mode : bool)
    : IO unit :=
  '(en_us, translations) ← load_tables fs;
  show_translation_stats en_us translations;;
  check_extra_keys seed en_us translations;;
  check_untranslated_strings seed (intentionally_untranslated_json fs)
    en_us translations;;
  check_order_of_strings en_us translations;;
  if wurst_mode then check_known_issues en_us translations else mret ().

End driver.

(** ** Vocabulary of the properties *)

(** [needle] occurs somewhere in [hay]. *)
Definition occurs (needle hay : string) : Prop :=
  ∃ before after, hay = before +:+ needle +:+ after.

(** Every key of every translation is a key of the reference. *)
Definition keys_subset (en_us : dict) (translations : Dict.t dict) : Prop :=
  ∀ lang data, (lang, data) ∈ translations → Dict.keys data ⊆ Dict.keys en_us.

Global Instance keys_subset_dec en_us translations :
  Decision (keys_subset en_us translations).
Proof.
  refine (cast_if (decide (Forall (λ entry : string * dict,
                             Forall (λ key, key ∈ Dict.keys en_us)
                               (Dict.keys entry.2)) translations)));
    unfold keys_subset.
  - intros lang data Hin key Hkey. rewrite Forall_forall in f.
    specialize (f (lang, data) Hin). rewrite Forall_forall in f. by apply f.
  - intros Hsub. apply n, Forall_forall. intros [lang data] Hin.
    apply Forall_forall. intros key Hkey. by apply (Hsub lang data).
Defined.

(** The keys of [data] that the reference lacks. *)
Definition extra_keys_of (en_us data : dict) : gset string :=
  list_to_set (Dict.keys data) ∖ list_to_set (Dict.keys en_us).

(** What [check_extra_keys] reports for one language. *)
Definition extra_keys_header (lang : string) (found : nat) : string :=
  "⚠ " +:+ lang
  +:+ ".json contains translations that don't exist in en_us.json ("
  +:+ pretty found +:+ " found):".

Definition extra_keys_block (seed : hash_seed) (en_us : dict)
    (entry : string * dict) : list string :=
  let extra_keys := extra_keys_of en_us entry.2 in
  if set_nonempty extra_keys then
    extra_keys_header entry.1 (size extra_keys)
    :: (String.append "- " <$> set_iter seed extra_keys)
  else [].

(** The keys of [data] whose value is the reference's and that
    [intentionally_untranslated] does not exempt for [lang]. *)
Definition untranslated_of (intentionally_untranslated : Dict.t (list string))
    (en_us : dict) (lang : string) (data : dict) : gset string :=
  list_to_set
    (filter (λ item, Dict.get en_us item.1 = Some item.2
                     ∧ exempted intentionally_untranslated lang item.1 = false)
       (data : list (string * string))).*1.

(** What [check_untranslated_strings] reports for a language whose
    untranslated keys it lists in the order [listed]. *)
Definition untranslated_report (en_us : dict) (lang : string)
    (listed : list string) : list string :=
  ("⚠ " +:+ lang
    +:+ ".json contains strings that are identical to en_us.json ("
    +:+ pretty (length listed) +:+ " found):")
  :: ((λ key, "- " +:+ key +:+ ": "
              +:+ default EmptyString (Dict.get en_us key)) <$> listed)
  ++ [ String "010"%char
         "If this is intentional, add the affected key(s) to intentionally_untranslated.json:";
       "```json";
       "  " +:+ quoted lang +:+ ": [" ]
  ++ ((λ key, "    " +:+ quoted key) <$> listed)
  ++ [ "  ]"; "```" ].

Definition untranslated_block (seed : hash_seed)
    (intentionally_untranslated : Dict.t (list string)) (en_us : dict)
    (entry : string * dict) : list string :=
  let untranslated_strings :=
    untranslated_of intentionally_untranslated en_us entry.1 entry.2 in
  if set_nonempty untranslated_strings then
    untranslated_report en_us entry.1 (set_iter seed untranslated_strings)
  else [].

(** The pair of [lang] and [key] is in the table of exemptions: the table
    has a list for [lang], and [key] is in that list. *)
Definition in_exemptions (intentionally_untranslated : Dict.t (list string))
    (lang key : string) : Prop :=
  ∃ keys, Dict.get intentionally_untranslated lang = Some keys ∧ key ∈ keys.

(** No string of any language is identical to the reference's without
    being in the table of exemptions. *)
Definition all_translated (intentionally_untranslated : Dict.t (list string))
    (en_us : dict) (translations : Dict.t dict) : Prop :=
  ∀ lang data key value en_value,
    (lang, data) ∈ translations →
    Dict.get data key = Some value →
    Dict.get en_us key = Some en_value →
    value ≠ en_value ∨ in_exemptions intentionally_untranslated lang key.

(** The keys that [data] shares with the reference come in the same order
    in both. *)
Definition order_matches (en_us data : dict) : Prop :=
  filter (λ key, key ∈ Dict.keys data) (Dict.keys en_us)
  = filter (λ key, key ∈ Dict.keys en_us) (Dict.keys data).

Global Instance order_matches_dec en_us data :
  Decision (order_matches en_us data).
Proof. unfold order_matches. apply _. Defined.

(** What [check_order_of_strings] raises for [lang]. *)
Definition order_error (lang : string) : exn :=
  Exception ("⚠ The order of strings in " +:+ lang
             +:+ ".json is different from en_us.json").

(** [format(a / b * 100, ".2f")] for two lengths, [b] not zero. *)
Definition percentage (a b : nat) : string :=
  Float.format_2f
    (Float.mul (Float.div (Float.of_int (Z.of_nat a)) (Float.of_int (Z.of_nat b)))
       (Float.of_int 100)).

(** The line of [show_translation_stats] for one language. *)
Definition stats_line (en_us : dict) (entry : string * dict) : string :=
  "| " +:+ entry.1 +:+ " | " +:+ pretty (length entry.2) +:+ " | "
  +:+ percentage (length entry.2) (length en_us) +:+ "% |".

(** The lines of [show_translation_stats] before the first language. *)
Definition stats_head (en_us : dict) : list string :=
  [ "| Language | Translated | % |";
    "| --- | --- | --- |";
    "| en_us | " +:+ pretty (length en_us) +:+ " | 100.00% |" ].

(** The keys that [main] removes from every translation. *)
Definition reserved_keys : list string :=
  [ "language.name"; "language.region"; "language.code" ].

Definition strip_reserved (data : dict) : dict :=
  Dict.pop (Dict.pop (Dict.pop data "language.name") "language.region")
    "language.code".

(** The paths that [main] reads as translations. *)
Definition is_translation (p : path) : bool :=
  is_file p && bool_decide (name p ≠ "en_us.json").

Definition is_content {A} (f : file A) : bool :=
  match f with Content _ => true | _ => false end.

(** A loaded translation is a file that [main] read, less the reserved
    keys, under the file's name less its [.json]. *)
Definition loaded_from (fs : filesystem) (entry : string * dict) : Prop :=
  ∃ p data,
    p ∈ rglob_json fs ∧ is_translation p = true ∧ contents p = Content data
    ∧ entry = (Str.removesuffix ".json" (name p), strip_reserved data).

(** What the typo rule of [check_known_issues] reports for one string and
    one entry of [known_typos]. *)
Definition typo_report (lang key value : string) (pair : string * string)
    : list string :=
  if Str.contains pair.1 value then
    [ "⚠ In " +:+ lang +:+ ".json string " +:+ key
        +:+ ", the word '" +:+ pair.2
        +:+ "' is incorrectly translated as '" +:+ pair.1 +:+ "':";
      "```json";
      "  " +:+ quoted key +:+ ": " +:+ quoted value;
      "```" ]
  else [].

Definition typos_report (entry : string * dict) : list string :=
  entry.2 ≫= λ item, known_typos ≫= typo_report entry.1 item.1 item.2.

(** What the two rules for difficult strings report for one language. *)
Definition boatfly_report (str_lower : string → string)
    (entry : string * dict) : list string :=
  if has_value_with entry.2 boatfly_key
       (λ value, Str.contains "shift" (str_lower value))
  then
    [ "⚠ In " +:+ entry.1 +:+ ".json, the translation for " +:+ boatfly_key
        +:+ " incorrectly suggests using the shift (sneak) key instead of ctrl (sprint) to descend" ]
  else [].

Definition radar_header (lang : string) : string :=
  "⚠ In " +:+ lang +:+ ".json, the translation for " +:+ radar_key
  +:+ " contains untranslated colors:".

Definition radar_report (entry : string * dict) : list string :=
  if has_value_with entry.2 radar_key radar_colors then
    [ radar_header entry.1;
      "```json";
      "  " +:+ quoted radar_key +:+ ": "
        +:+ quoted (default EmptyString (Dict.get entry.2 radar_key));
      "```" ]
  else [].

(** Everything that [check_known_issues] reports before it raises. *)
Definition known_issues_report (str_lower : string → string)
    (translations : Dict.t dict) : list string :=
  (translations ≫= typos_report)
  ++ (translations
        ≫= λ entry, boatfly_report str_lower entry ++ radar_report entry).

(** The lines of [block] stand together, in order, in [lines]. *)
Definition emitted_together (block lines : list string) : Prop :=
  ∃ before after, lines = before ++ block ++ after.

(** The checks of [main] on the loaded tables, in the order it runs them. *)
Definition checks (str_lower : string → string) (seed : hash_seed)
    (fs : filesystem) (wurst_mode : bool)
    (en_us : dict) (translations : Dict.t dict) : list (IO unit) :=
  [ show_translation_stats en_us translations;
    check_extra_keys seed en_us translations;
    check_untranslated_strings seed (intentionally_untranslated_json fs)
      en_us translations;
    check_order_of_strings en_us translations ]
  ++ (if wurst_mode then [check_known_issues str_lower en_us translations]
      else []).

(** One statement after the other. *)
Fixpoint run_all (l : list (IO unit)) : IO unit :=
  match l with
  | [] => mret ()
  | m :: l' => m;; run_all l'
  end.

(** Two runs that end alike and whose reports hold the same lines, in the
    same order as soon as the run returns. *)
Definition same_up_to_order {A} (m1 m2 : IO A) : Prop :=
  outcome m1 = outcome m2
  ∧ report m1 ≡ₚ report m2
  ∧ (∀ a, outcome m1 = inr a → m1 = m2).

(** Two blocks of one language that differ at most in the order of its
    keys: the same lines, or the block of [check_extra_keys] for [lang], or
    that of [check_untranslated_strings] for [lang], over two arrangements
    of the same keys. *)
Definition same_listing (en_us : dict) (lang : string)
    (block1 block2 : list string) : Prop :=
  block1 = block2
  ∨ ∃ listed1 listed2,
      listed1 ≡ₚ listed2
      ∧ ((block1 = extra_keys_header lang (length listed1)
                   :: (String.append "- " <$> listed1)
          ∧ block2 = extra_keys_header lang (length listed2)
                     :: (String.append "- " <$> listed2))
         ∨ (block1 = untranslated_report en_us lang listed1
            ∧ block2 = untranslated_report en_us lang listed2)).

(** Two reports that differ at most in the order of the keys within the
    block of a language: they start with the same lines and go on, language
    by language in the order of [translations], with two blocks of that
    language that are the same up to the order of its keys. *)
Definition same_up_to_key_order (en_us : dict) (translations : Dict.t dict)
    (lines1 lines2 : list string) : Prop :=
  ∃ head (block1 block2 : string * dict → list string),
    lines1 = head ++ (translations ≫= block1)
    ∧ lines2 = head ++ (translations ≫= block2)
    ∧ ∀ lang data,
        (lang, data) ∈ translations →
        same_listing en_us lang (block1 (lang, data)) (block2 (lang, data)).

(** No rule of [check_known_issues] finds anything in [translations]: no
    typo of the table in any string, no [shift] in a boatfly string once in
    lower case, none of the three colors in a radar string. *)
Definition no_known_issue (str_lower : string → string)
    (translations : Dict.t dict) : Prop :=
  ∀ lang data,
    (lang, data) ∈ translations →
    (∀ key value typo correct,
       (key, value) ∈ data → (typo, correct) ∈ known_typos →
       ¬ occurs typo value)
    ∧ (∀ value, Dict.get data boatfly_key = Some value →
                ¬ occurs "shift" (str_lower value))
    ∧ (∀ value, Dict.get data radar_key = Some value →
                ¬ occurs "§cred§r" value ∧ ¬ occurs "§agreen§r" value
                ∧ ¬ occurs "§7gray§r" value).

(** The warning of the boatfly rule for [lang]. *)
Definition boatfly_line (lang : string) : string :=
  "⚠ In " +:+ lang +:+ ".json, the translation for " +:+ boatfly_key
  +:+ " incorrectly suggests using the shift (sneak) key instead of ctrl (sprint) to descend".

(** The language code that [main] gives a path. *)
Definition lang_of (p : path) : string := Str.removesuffix ".json" (name p).

(** The paths that [main] reads as translations, in the order it does. *)
Definition translation_paths (fs : filesystem) : list path :=
  filter (λ p, is_translation p = true) (sorted_by_name (rglob_json fs)).

(** The table in a file that holds one. *)
Definition content_of (p : path) : dict :=
  match contents p with Content data => data | _ => [] end.

(** No item of any language has the reference's string without being in
    the table of exemptions. *)
Definition all_items_translated
    (intentionally_untranslated : Dict.t (list string))
    (en_us : dict) (translations : Dict.t dict) : Prop :=
  ∀ lang data key value,
    (lang, data) ∈ translations →
    (key, value) ∈ data →
    Dict.get en_us key = Some value →
    in_exemptions intentionally_untranslated lang key.

(** What reading a path that holds no table raises. *)
Definition read_error (p : path) : exn :=
  match contents p with
  | Missing => FileNotFoundError (name p)
  | _ => JSONDecodeError (name p)
  end.

(** Two translation maps with the same languages and, language by
    language, the same keys in the same order. *)
Definition same_keys (translations translations' : Dict.t dict) : Prop :=
  Forall2 (λ entry entry' : string * dict,
             entry.1 = entry'.1 ∧ Dict.keys entry.2 = Dict.keys entry'.2)
    translations translations'.

(** Two iteration orders, for running the checks on examples: a set of two
    strings comes out one way under the first and the other way under the
    second, as it does under two seeds of CPython. *)
Definition seed_fwd : hash_seed :=
  HashSeed elements (λ X, reflexivity (elements X)).

Definition seed_rev : hash_seed :=
  HashSeed (λ X, reverse (elements X)) (λ X, reverse_Permutation (elements X)).

(** * Properties *)

(** ** The report monad *)

Section io_lemmas.
Context {A B : Type}.
Implicit Types (m : IO A) (f : A → IO B).

Lemma bind_inr lines a f :
  (lines, inr a) ≫= f = (lines ++ report (f a), outcome (f a)).
Proof. reflexivity. Qed.

Lemma outcome_bind m f :
  outcome (m ≫= f) =
    match outcome m with inl e => inl e | inr a => outcome (f a) end.
Proof. destruct m as [lines [e|a]]; reflexivity. Qed.

Lemma report_bind m f :
  report (m ≫= f) =
    report m ++ match outcome m with inl _ => [] | inr a => report (f a) end.
Proof. destruct m as [lines [e|a]]; simpl; [by rewrite app_nil_r|done]. Qed.

End io_lemmas.

Lemma gh_summary_bind {B} (summary : string) (f : () → IO B) :
  gh_summary summary ≫= f = (summary :: report (f ()), outcome (f ())).
Proof. reflexivity. Qed.

Lemma raise_bind {A B} (e : exn) (f : A → IO B) : raise e ≫= f = raise e.
Proof. reflexivity. Qed.

Lemma mret_bind {A B} (a : A) (f : A → IO B) : mret a ≫= f = f a.
Proof. unfold mret, IO_ret. rewrite bind_inr. by destruct (f a). Qed.

(** Run the steps of a computation whose head is known. *)
Ltac io_simpl :=
  repeat first
    [ rewrite gh_summary_bind | rewrite mret_bind | rewrite raise_bind
    | rewrite bind_inr | progress cbn beta ].

(** A loop whose body never raises: it emits [w x] and updates the state
    by [g x]. *)
Lemma for_in_total {A S} (w : A → list string) (g : A → S → S)
    (body : A → S → IO S) (l : list A) (s : S) :
  (∀ x s, x ∈ l → body x s = (w x, inr (g x s))) →
  for_in l body s = (l ≫= w, inr (foldl (λ s x, g x s) s l)).
Proof.
  revert s. induction l as [|x l IH]; intros s Hbody; [done|].
  cbn [for_in]. rewrite Hbody by left. rewrite bind_inr.
  rewrite IH by (intros; apply Hbody; by right). done.
Qed.

(** A loop stops at the first element whose body raises. *)
Lemma for_in_first_raise {A S} (body : A → S → IO S)
    (before : list A) (x : A) (after : list A) (e : exn) (s : S) :
  (∀ y s, y ∈ before → ∃ s', outcome (body y s) = inr s') →
  (∀ s, outcome (body x s) = inl e) →
  outcome (for_in (before ++ x :: after) body s) = inl e.
Proof.
  revert s. induction before as [|y before IH]; intros s Hbefore Hx.
  - cbn [app for_in]. by rewrite outcome_bind, Hx.
  - cbn [app for_in]. rewrite outcome_bind.
    destruct (Hbefore y s) as [s' ->]; [left|].
    apply IH; [|done]. intros; apply Hbefore; by right.
Qed.

Lemma for_each_cons {A} (body : A → IO unit) (x : A) (l : list A) :
  for_each (x :: l) body = (body x;; for_each l body).
Proof.
  unfold for_each. cbn [for_in]. by destruct (body x) as [lines [e|[]]].
Qed.

(** A loop of bodies that emit nothing: it stops at the first that raises. *)
Lemma for_each_silent {A} (body : A → IO unit) (l : list A) :
  (∀ y, y ∈ l → body y = mret ()) → for_each l body = mret ().
Proof.
  induction l as [|y l IH]; intros Hl; [done|].
  rewrite for_each_cons, Hl, mret_bind by left.
  apply IH. intros; apply Hl; by right.
Qed.

Lemma for_each_silent_raise {A} (body : A → IO unit)
    (before : list A) (x : A) (after : list A) (e : exn) :
  (∀ y, y ∈ before → body y = mret ()) →
  body x = raise e →
  for_each (before ++ x :: after) body = raise e.
Proof.
  induction before as [|y before IH]; intros Hbefore Hx.
  - cbn [app]. by rewrite for_each_cons, Hx, raise_bind.
  - cbn [app]. rewrite for_each_cons, Hbefore, mret_bind by left.
    apply IH; [|done]. intros; apply Hbefore; by right.
Qed.

Lemma for_each_ext {A} (body body' : A → IO unit) (l : list A) :
  (∀ x, x ∈ l → body x = body' x) → for_each l body = for_each l body'.
Proof.
  induction l as [|x l IH]; intros Hl; [done|].
  rewrite !for_each_cons, Hl, IH; [done| |left].
  intros; apply Hl; by right.
Qed.

Lemma for_in_invariant {A S} (I : S → Prop) (body : A → S → IO S)
    (l : list A) (s : S) :
  I s →
  (∀ x s s', x ∈ l → I s → outcome (body x s) = inr s' → I s') →
  ∀ s', outcome (for_in l body s) = inr s' → I s'.
Proof.
  revert s. induction l as [|x l IH]; intros s Hs Hstep s'.
  - cbn [for_in]. by intros [= <-].
  - cbn [for_in]. rewrite outcome_bind.
    destruct (outcome (body x s)) as [e|s1] eqn:Hx; [done|].
    apply IH.
    + eapply Hstep; [left|done|done].
    + intros y t t' Hy. apply Hstep. by right.
Qed.

Lemma for_in_report_nil {A S} (body : A → S → IO S) (l : list A) (s : S) :
  (∀ x s, x ∈ l → report (body x s) = []) → report (for_in l body s) = [].
Proof.
  revert s. induction l as [|x l IH]; intros s Hl; [done|].
  cbn [for_in]. rewrite report_bind, Hl by left.
  destruct (outcome (body x s)); [done|].
  apply IH. intros; apply Hl; by right.
Qed.

(** A loop returns exactly when every body does. *)
Lemma for_in_returns {A S} (ok : A → bool) (body : A → S → IO S)
    (l : list A) (s : S) :
  (∀ x s, x ∈ l → ok x = true → ∃ s', outcome (body x s) = inr s') →
  (∀ x s, x ∈ l → ok x = false → ∃ e, outcome (body x s) = inl e) →
  (∃ s', outcome (for_in l body s) = inr s') ↔ Forall (λ x, ok x = true) l.
Proof.
  revert s. induction l as [|x l IH]; intros s Hok Hko.
  - cbn [for_in]. split; [constructor|]. by exists s.
  - cbn [for_in]. rewrite outcome_bind, Forall_cons.
    destruct (ok x) eqn:Hx.
    + destruct (Hok x s) as [s' ->]; [left|done|].
      rewrite IH; [naive_solver| |].
      * intros y t Hy. apply Hok. by right.
      * intros y t Hy. apply Hko. by right.
    + destruct (Hko x s) as [e ->]; [left|done|].
      split; [by intros [? [=]]|by intros [[=] _]].
Qed.

(** The first element of a list at which a decidable property fails. *)
Lemma first_failing {A} (P : A → Prop) `{!∀ x, Decision (P x)} (l : list A) :
  ¬ Forall P l →
  ∃ before x after, l = before ++ x :: after ∧ Forall P before ∧ ¬ P x.
Proof.
  induction l as [|x l IH]; intros Hnot.
  - destruct Hnot. constructor.
  - destruct (decide (P x)) as [Hx|Hx].
    + destruct IH as (before & y & after & -> & Hbefore & Hy).
      { intros Hl. apply Hnot. by constructor. }
      exists (x :: before), y, after. by repeat constructor.
    + exists [], x, l. by repeat constructor.
Qed.

(** A loop that sets its flag whenever it emits something. *)
Lemma for_in_flag {A} (w : A → list string) (body : A → bool → IO bool)
    (l : list A) (flag : bool) :
  (∀ x flag, x ∈ l →
     body x flag = (w x, inr (flag || bool_decide (w x ≠ [])))) →
  for_in l body flag = (l ≫= w, inr (flag || bool_decide (l ≫= w ≠ []))).
Proof.
  revert flag. induction l as [|x l IH]; intros flag Hbody.
  - cbn. by rewrite orb_false_r.
  - cbn [for_in]. rewrite Hbody, bind_inr by left.
    rewrite IH by (intros; apply Hbody; by right).
    unfold report, outcome. cbn [fst snd]. rewrite bind_cons.
    do 2 f_equal. rewrite <-orb_assoc. f_equal.
    apply eq_true_iff_eq. rewrite orb_true_iff, !bool_decide_eq_true.
    destruct (w x); [|naive_solver]. cbn [app]. naive_solver.
Qed.

Lemma for_each_gh_summary {A} (f : A → string) (l : list A) :
  for_each l (λ x, gh_summary (f x)) = (f <$> l, inr ()).
Proof.
  unfold for_each. induction l as [|x l IH]; [done|].
  cbn [for_in fmap list_fmap]. rewrite gh_summary_bind, IH. done.
Qed.

(** ** [check_extra_keys] *)

Lemma set_nonempty_true (X : gset string) : set_nonempty X = true ↔ X ≠ ∅.
Proof. unfold set_nonempty. by rewrite bool_decide_eq_true. Qed.

Lemma set_nonempty_false (X : gset string) : set_nonempty X = false ↔ X = ∅.
Proof.
  unfold set_nonempty. rewrite bool_decide_eq_false.
  split; [apply dec_stable | intros -> H; by apply H].
Qed.

Lemma extra_keys_of_empty (en_us data : dict) :
  extra_keys_of en_us data = ∅ ↔ Dict.keys data ⊆ Dict.keys en_us.
Proof.
  unfold extra_keys_of. split.
  - intros HX k Hk. destruct (decide (k ∈ Dict.keys en_us)) as [|Hn]; [done|].
    assert (k ∈ (∅ : gset string)) as H0; [|set_solver].
    rewrite <-HX. set_solver.
  - intros Hsub. apply set_eq. intros k. set_solver.
Qed.

Lemma keys_subset_Forall (en_us : dict) (translations : Dict.t dict) :
  keys_subset en_us translations
  ↔ Forall (λ entry, extra_keys_of en_us entry.2 = ∅) translations.
Proof.
  rewrite Forall_forall. unfold keys_subset. split.
  - intros H [lang data] Hin. apply extra_keys_of_empty. by eapply H.
  - intros H lang data Hin. by apply extra_keys_of_empty, (H (lang, data)).
Qed.

(** The flag of a loop that only ever sets it. *)
Lemma foldl_flag {A} (P : A → bool) (l : list A) (b : bool) :
  foldl (λ s x, if P x then true else s) b l = b || existsb P l.
Proof.
  revert b. induction l as [|x l IH]; intros b; simpl.
  - by rewrite orb_false_r.
  - rewrite IH. destruct (P x), b; done.
Qed.

Lemma existsb_extra_keys (en_us : dict) (translations : Dict.t dict) :
  existsb (λ entry, set_nonempty (extra_keys_of en_us entry.2)) translations
  = bool_decide (¬ keys_subset en_us translations).
Proof.
  apply eq_true_iff_eq. rewrite existsb_exists, bool_decide_eq_true.
  rewrite keys_subset_Forall, <-Exists_Forall_neg, Exists_exists.
  - split; intros (entry & Hin & HX); exists entry;
      rewrite set_nonempty_true in *; by rewrite list_elem_of_In in *.
  - intros entry. destruct (decide (extra_keys_of en_us entry.2 = ∅)); auto.
Qed.

Lemma bind_nil {A B} (f : A → list B) (l : list A) :
  Forall (λ x, f x = []) l → l ≫= f = [].
Proof.
  induction 1 as [|x l Hx _ IH]; [done|].
  cbn [mbind list_bind]. fold (l ≫= f). by rewrite Hx, IH.
Qed.

Lemma extra_keys_block_subset seed en_us translations :
  keys_subset en_us translations →
  translations ≫= extra_keys_block seed en_us = [].
Proof.
  rewrite keys_subset_Forall. intros H. apply bind_nil.
  eapply Forall_impl; [exact H|]. intros entry HX.
  unfold extra_keys_block. simpl. by rewrite (proj2 (set_nonempty_false _) HX).
Qed.

(** The run of [check_extra_keys] in closed form. *)
Lemma check_extra_keys_eq seed en_us translations :
  check_extra_keys seed en_us translations =
    if decide (keys_subset en_us translations) then
      (["✅ No extra keys found"], inr ())
    else
      (translations ≫= extra_keys_block seed en_us,
       inl (Exception "Found extra keys in one or more translation files")).
Proof.
  unfold check_extra_keys.
  rewrite (for_in_total (extra_keys_block seed en_us)
             (λ entry s, if set_nonempty (extra_keys_of en_us entry.2)
                         then true else s)).
  - rewrite bind_inr, foldl_flag, existsb_extra_keys. simpl.
    destruct (decide (keys_subset en_us translations)) as [Hsub|Hsub].
    + rewrite bool_decide_eq_false_2 by auto. simpl.
      by rewrite extra_keys_block_subset.
    + rewrite bool_decide_eq_true_2 by auto. simpl. by rewrite app_nil_r.
  - intros [lang data] found _.
    unfold extra_keys_block, extra_keys_header. cbn [fst snd].
    fold (extra_keys_of en_us data).
    destruct (set_nonempty (extra_keys_of en_us data)); [|done].
    rewrite gh_summary_bind, for_each_gh_summary, bind_inr.
    unfold report, outcome, mret, IO_ret. cbn [fst snd]. by rewrite app_nil_r.
Qed.

Lemma set_iter_elem_of seed (X : gset string) (x : string) :
  x ∈ set_iter seed X ↔ x ∈ X.
Proof. by rewrite (set_iter_perm seed X), elem_of_elements. Qed.

Lemma set_iter_length seed (X : gset string) :
  length (set_iter seed X) = size X.
Proof. by rewrite (set_iter_perm seed X). Qed.

Lemma set_iter_NoDup seed (X : gset string) : NoDup (set_iter seed X).
Proof. rewrite (set_iter_perm seed X). apply NoDup_elements. Qed.

Lemma elem_of_extra_keys_of (en_us data : dict) (key : string) :
  key ∈ extra_keys_of en_us data
  ↔ key ∈ Dict.keys data ∧ key ∉ Dict.keys en_us.
Proof. unfold extra_keys_of. set_solver. Qed.

(** The part of a report that one entry of a loop contributes. *)
Lemma bind_elem_of_split {A B} (f : A → list B) (l : list A) (x : A) :
  x ∈ l → ∃ before after, l ≫= f = before ++ f x ++ after.
Proof.
  intros (pre & post & ->)%list_elem_of_split.
  exists (pre ≫= f), (post ≫= f). by rewrite bind_app, bind_cons.
Qed.

(** C1.  [check_extra_keys] emits its one confirmation line and returns
    exactly when the keys of every language are among the reference keys.
    Otherwise it raises, and by then the report holds, for every language
    with an extra key, that language's header followed by one line for each
    of its extra keys. *)
Theorem check_extra_keys_spec seed en_us translations :
  (check_extra_keys seed en_us translations
     = (["✅ No extra keys found"], inr ())
   ↔ keys_subset en_us translations)
  ∧ (outcome (check_extra_keys seed en_us translations) = inr ()
     ↔ keys_subset en_us translations)
  ∧ (¬ keys_subset en_us translations →
     outcome (check_extra_keys seed en_us translations)
       = inl (Exception "Found extra keys in one or more translation files")
     ∧ ∀ lang data,
         (lang, data) ∈ translations →
         ¬ (Dict.keys data ⊆ Dict.keys en_us) →
         ∃ before listed after,
           report (check_extra_keys seed en_us translations)
             = before
               ++ extra_keys_header lang (length listed)
                  :: (String.append "- " <$> listed)
               ++ after
           ∧ NoDup listed
           ∧ ∀ key, key ∈ listed
                    ↔ key ∈ Dict.keys data ∧ key ∉ Dict.keys en_us).
Proof.
  rewrite check_extra_keys_eq.
  destruct (decide (keys_subset en_us translations)) as [Hsub|Hsub].
  - repeat split; auto; done.
  - split; [|split].
    + split; [|done]. intros [=].
    + split; [|done]. intros [=].
    + intros _. split; [done|]. intros lang data Hin Hextra.
      destruct (bind_elem_of_split (extra_keys_block seed en_us) _ _ Hin)
        as (before & after & Heq).
      exists before, (set_iter seed (extra_keys_of en_us data)), after.
      split; [|split].
      * unfold report. cbn [fst]. rewrite Heq. unfold extra_keys_block.
        cbn [fst snd]. rewrite (proj2 (set_nonempty_true _)).
        { by rewrite set_iter_length. }
        by rewrite extra_keys_of_empty.
      * apply set_iter_NoDup.
      * intros key. by rewrite set_iter_elem_of, elem_of_extra_keys_of.
Qed.

(** ** Dictionaries *)

Lemma Dict_get_is_Some {V} (d : Dict.t V) (k : string) :
  is_Some (Dict.get d k) ↔ k ∈ Dict.keys d.
Proof.
  unfold Dict.keys. induction d as [|[k' v] d IH]; simpl.
  - rewrite elem_of_nil. split; [by intros [? [=]]|done].
  - rewrite elem_of_cons. destruct (decide (k' = k)) as [->|Hne].
    + split; eauto.
    + rewrite IH. naive_solver.
Qed.

Lemma Dict_get_None {V} (d : Dict.t V) (k : string) :
  Dict.get d k = None ↔ k ∉ Dict.keys d.
Proof. by rewrite <-Dict_get_is_Some, eq_None_not_Some. Qed.

Lemma Dict_get_Some_elem_of {V} (d : Dict.t V) (k : string) (v : V) :
  Dict.get d k = Some v → (k, v) ∈ d.
Proof.
  induction d as [|[k' v'] d IH]; simpl; [done|].
  destruct (decide (k' = k)) as [->|Hne].
  - intros [= ->]. left.
  - intros H. right. auto.
Qed.

Lemma Dict_elem_of_get_Some {V} (d : Dict.t V) (k : string) (v : V) :
  Dict.wf d → (k, v) ∈ d → Dict.get d k = Some v.
Proof.
  unfold Dict.wf, Dict.keys. induction d as [|[k' v'] d IH]; simpl.
  - by intros _ ?%elem_of_nil.
  - rewrite NoDup_cons. intros [Hk' Hd] [[= -> ->]|Hin]%elem_of_cons.
    + by rewrite decide_True.
    + rewrite decide_False; [auto|]. intros ->. apply Hk'.
      apply list_elem_of_fmap. by exists (k, v).
Qed.

Lemma getitem_Some {V} (d : Dict.t V) (k : string) (v : V) :
  Dict.get d k = Some v → getitem d k = mret v.
Proof. unfold getitem. by intros ->. Qed.

Lemma getitem_None {V} (d : Dict.t V) (k : string) :
  Dict.get d k = None → getitem d k = raise (KeyError k).
Proof. unfold getitem. by intros ->. Qed.

(** ** [check_untranslated_strings] *)

(** The test of line 58 holds exactly of the pairs in the table. *)
Lemma exempted_true (intentionally_untranslated : Dict.t (list string))
    (lang key : string) :
  exempted intentionally_untranslated lang key = true
  ↔ in_exemptions intentionally_untranslated lang key.
Proof.
  unfold exempted, in_exemptions.
  destruct (Dict.get intentionally_untranslated lang) as [keys|].
  - rewrite bool_decide_eq_true. split; [by exists keys|].
    by intros (keys' & [= <-] & Hkey).
  - split; [done|]. by intros (keys & [=] & _).
Qed.

Lemma exempted_false (intentionally_untranslated : Dict.t (list string))
    (lang key : string) :
  exempted intentionally_untranslated lang key = false
  ↔ ¬ in_exemptions intentionally_untranslated lang key.
Proof. by rewrite <-exempted_true, not_true_iff_false. Qed.

Section untranslated.
Context (seed : hash_seed) (intentionally_untranslated : Dict.t (list string)).
Context (en_us : dict).

(** The inner loop, over the items of one language. *)
Lemma scan_items_ok lang (data : dict) (acc : gset string) :
  Dict.keys data ⊆ Dict.keys en_us →
  for_in data (λ '(key, value) (untranslated_strings : gset string),
    en_value ← getitem en_us key;
    if decide (value = en_value) then
      if exempted intentionally_untranslated lang key
      then mret untranslated_strings
      else mret ({[key]} ∪ untranslated_strings)
    else mret untranslated_strings) acc
  = ([], inr (untranslated_of intentionally_untranslated en_us lang data
              ∪ acc)).
Proof.
  revert acc. induction data as [|[key value] data IH]; intros acc Hsub.
  - cbn [for_in]. unfold untranslated_of. simpl.
    by rewrite (left_id_L ∅ (∪)).
  - cbn [for_in].
    assert (is_Some (Dict.get en_us key)) as [en_value Hget].
    { apply Dict_get_is_Some, Hsub. left. }
    rewrite (getitem_Some _ _ _ Hget), mret_bind.
    assert (Dict.keys data ⊆ Dict.keys en_us) as Hsub'.
    { intros k Hk. apply Hsub. by right. }
    unfold untranslated_of. rewrite filter_cons.
    destruct (decide (value = en_value)) as [->|Hne].
    + destruct (exempted intentionally_untranslated lang key) eqn:Hex.
      * rewrite mret_bind, IH by done.
        rewrite decide_False; [done|].
        cbn [fst snd]. intros [_ H]. congruence.
      * rewrite mret_bind, IH by done.
        rewrite decide_True by done. unfold untranslated_of.
        do 2 f_equal. cbn [fmap list_fmap fst list_to_set foldr].
        set_solver.
    + rewrite mret_bind, IH by done.
      rewrite decide_False; [done|].
      cbn [fst snd]. intros [H _]. congruence.
Qed.

Lemma scan_items_key_error lang (data : dict) (acc : gset string) :
  ¬ (Dict.keys data ⊆ Dict.keys en_us) →
  ∃ key, key ∈ Dict.keys data ∧ (key ∉ Dict.keys en_us) ∧
    for_in data (λ '(key, value) (untranslated_strings : gset string),
      en_value ← getitem en_us key;
      if decide (value = en_value) then
        if exempted intentionally_untranslated lang key
        then mret untranslated_strings
        else mret ({[key]} ∪ untranslated_strings)
      else mret untranslated_strings) acc
    = ([], inl (KeyError key)).
Proof.
  revert acc. induction data as [|[key value] data IH]; intros acc Hsub.
  - destruct Hsub. intros k Hk. by apply elem_of_nil in Hk.
  - cbn [for_in]. destruct (Dict.get en_us key) as [en_value|] eqn:Hget.
    + assert (¬ (Dict.keys data ⊆ Dict.keys en_us)) as Hsub'.
      { intros H. apply Hsub. intros k [Hk|Hk]%elem_of_cons; [|by apply H].
        cbn [fst] in Hk. subst k. apply Dict_get_is_Some. eauto. }
      rewrite (getitem_Some _ _ _ Hget), mret_bind.
      destruct (decide (value = en_value));
        [destruct (exempted intentionally_untranslated lang key)|];
        rewrite mret_bind;
        match goal with
        | |- context [for_in data _ ?acc'] =>
            destruct (IH acc' Hsub') as (k & Hk & Hn & Heq)
        end;
        (exists k; split; [by right|]; split; [done|]; exact Heq).
    + exists key. split; [left|]. split; [by apply Dict_get_None|].
      by rewrite (getitem_None _ _ Hget), raise_bind.
Qed.

End untranslated.

Section untranslated_closed_form.
Context (seed : hash_seed) (intentionally_untranslated : Dict.t (list string)).
Context (en_us : dict).

Lemma untranslated_of_subseteq lang (data : dict) :
  Dict.keys data ⊆ Dict.keys en_us →
  ∀ key, key ∈ untranslated_of intentionally_untranslated en_us lang data →
         is_Some (Dict.get en_us key).
Proof.
  intros Hsub key. unfold untranslated_of.
  rewrite elem_of_list_to_set, list_elem_of_fmap.
  intros ([k v] & -> & [[Hget _] _]%list_elem_of_filter). eauto.
Qed.

(** The loop that lists the untranslated keys with their strings. *)
Lemma list_untranslated_ok (f : string → string → string) (l : list string) :
  (∀ key, key ∈ l → is_Some (Dict.get en_us key)) →
  for_each l (λ key, en_value ← getitem en_us key;
                     gh_summary (f key en_value))
  = ((λ key, f key (default EmptyString (Dict.get en_us key))) <$> l,
     inr ()).
Proof.
  unfold for_each. induction l as [|key l IH]; intros Hl; [done|].
  cbn [for_in fmap list_fmap].
  destruct (Hl key) as [en_value Hget]; [left|].
  rewrite (getitem_Some _ _ _ Hget), mret_bind, gh_summary_bind, Hget.
  rewrite IH by (intros; apply Hl; by right). done.
Qed.

Lemma untranslated_body_eq lang (data : dict) (found : bool) :
  Dict.keys data ⊆ Dict.keys en_us →
  (untranslated_strings ←
     for_in data (λ '(key, value) (untranslated_strings : gset string),
       en_value ← getitem en_us key;
       if decide (value = en_value) then
         if exempted intentionally_untranslated lang key
         then mret untranslated_strings
         else mret ({[key]} ∪ untranslated_strings)
       else mret untranslated_strings) ∅;
   if set_nonempty untranslated_strings then
     gh_summary ("⚠ " +:+ lang
       +:+ ".json contains strings that are identical to en_us.json ("
       +:+ pretty (size untranslated_strings) +:+ " found):");;
     for_each (set_iter seed untranslated_strings) (λ key,
       en_value ← getitem en_us key;
       gh_summary ("- " +:+ key +:+ ": " +:+ en_value));;
     gh_summary (String "010"%char
       "If this is intentional, add the affected key(s) to intentionally_untranslated.json:");;
     gh_summary "```json";;
     gh_summary ("  " +:+ quoted lang +:+ ": [");;
     for_each (set_iter seed untranslated_strings) (λ key,
       gh_summary ("    " +:+ quoted key));;
     gh_summary "  ]";;
     gh_summary "```";;
     mret true
   else mret found)
  = (untranslated_block seed intentionally_untranslated en_us (lang, data),
     inr (if set_nonempty (untranslated_of intentionally_untranslated
                             en_us lang data)
          then true else found)).
Proof.
  intros Hsub. rewrite scan_items_ok, bind_inr by done.
  rewrite (right_id_L ∅ (∪)). unfold untranslated_block. cbn [fst snd].
  destruct (set_nonempty _); [|done].
  rewrite gh_summary_bind.
  rewrite (list_untranslated_ok (λ key en_value, "- " +:+ key +:+ ": " +:+ en_value))
    by (intros key Hkey%set_iter_elem_of;
        by eapply untranslated_of_subseteq).
  io_simpl. rewrite for_each_gh_summary. io_simpl.
  unfold report, outcome, mret, IO_ret, untranslated_report. cbn [fst snd].
  rewrite set_iter_length. reflexivity.
Qed.

(** The run of [check_untranslated_strings] in closed form, once no
    language has an extra key. *)
Lemma check_untranslated_strings_eq translations :
  keys_subset en_us translations →
  check_untranslated_strings seed (Content intentionally_untranslated)
    en_us translations
  = if existsb (λ entry,
         set_nonempty (untranslated_of intentionally_untranslated en_us
                         entry.1 entry.2)) translations
    then
      (translations
         ≫= untranslated_block seed intentionally_untranslated en_us,
       inl (Exception
              "Found untranslated strings in one or more translation files"))
    else (["✅ No accidentally untranslated strings found"], inr ()).
Proof.
  intros Hsub. unfold check_untranslated_strings, read_json_file.
  rewrite mret_bind.
  rewrite (for_in_total
             (untranslated_block seed intentionally_untranslated en_us)
             (λ entry s,
                if set_nonempty (untranslated_of intentionally_untranslated
                                   en_us entry.1 entry.2)
                then true else s)).
  - rewrite bind_inr, foldl_flag. cbn [orb].
    destruct (existsb _ translations) eqn:Hany.
    + unfold report, outcome, raise. cbn [fst snd]. by rewrite app_nil_r.
    + unfold report, outcome, gh_summary. cbn [fst snd]. f_equal.
      rewrite bind_nil; [done|]. apply Forall_forall. intros entry Hin.
      unfold untranslated_block.
      destruct (set_nonempty _) eqn:Hne; [|done].
      rewrite <-not_true_iff_false in Hany. destruct Hany.
      apply existsb_exists. exists entry. by rewrite <-list_elem_of_In.
  - intros [lang data] found Hin. apply untranslated_body_eq.
    by apply (Hsub lang).
Qed.

Lemma elem_of_untranslated_of lang (data : dict) (key : string) :
  Dict.wf data →
  key ∈ untranslated_of intentionally_untranslated en_us lang data
  ↔ ∃ value, Dict.get data key = Some value
             ∧ Dict.get en_us key = Some value
             ∧ exempted intentionally_untranslated lang key = false.
Proof.
  intros Hwf. unfold untranslated_of.
  rewrite elem_of_list_to_set, list_elem_of_fmap. split.
  - intros ([k v] & -> & [[Hget Hex] Hin]%list_elem_of_filter).
    exists v. eauto using Dict_elem_of_get_Some.
  - intros (value & Hdata & Hen & Hex). exists (key, value).
    split; [done|]. apply list_elem_of_filter.
    eauto using Dict_get_Some_elem_of.
Qed.

Lemma all_translated_existsb translations :
  (∀ lang data, (lang, data) ∈ translations → Dict.wf data) →
  existsb (λ entry,
    set_nonempty (untranslated_of intentionally_untranslated en_us
                    entry.1 entry.2)) translations = false
  ↔ all_translated intentionally_untranslated en_us translations.
Proof.
  intros Hwf. rewrite <-not_true_iff_false, existsb_exists. split.
  - intros Hnone lang data key value en_value Hin Hdata Hen.
    destruct (decide (value = en_value)) as [->|]; [|by left]. right.
    apply exempted_true.
    destruct (exempted intentionally_untranslated lang key) eqn:Hex; [done|].
    destruct Hnone. exists (lang, data).
    split; [by apply list_elem_of_In|]. apply set_nonempty_true.
    intros Hempty. apply (not_elem_of_empty (C:=gset string) key).
    rewrite <-Hempty. apply elem_of_untranslated_of; eauto.
  - intros Hall ([lang data] & Hin%list_elem_of_In & HX%set_nonempty_true).
    apply HX. cbn [fst snd]. apply set_eq. intros key.
    rewrite elem_of_untranslated_of by eauto. split; [|set_solver].
    intros (value & Hdata & Hen & Hex).
    destruct (Hall lang data key value value Hin Hdata Hen) as [|Hin'];
      [done|].
    apply exempted_true in Hin'. congruence.
Qed.

End untranslated_closed_form.

(** C2.  With no extra key in any language and the exemption table read,
    [check_untranslated_strings] returns (after its one confirmation line)
    exactly when every string of every language either differs from the
    reference's or has its language and key in the exemption table.
    Otherwise it raises, and by then the report holds the whole block of
    every language with such a string, listing each of its keys whose
    string is the reference's and that the table does not have for it. *)
Theorem check_untranslated_strings_spec seed intentionally_untranslated
    en_us translations :
  keys_subset en_us translations →
  (∀ lang data, (lang, data) ∈ translations → Dict.wf data) →
  let run :=
    check_untranslated_strings seed (Content intentionally_untranslated)
      en_us translations in
  (run = (["✅ No accidentally untranslated strings found"], inr ())
   ↔ all_translated intentionally_untranslated en_us translations)
  ∧ (outcome run = inr ()
     ↔ all_translated intentionally_untranslated en_us translations)
  ∧ (¬ all_translated intentionally_untranslated en_us translations →
     outcome run
       = inl (Exception
                "Found untranslated strings in one or more translation files")
     ∧ ∀ lang data key value,
         (lang, data) ∈ translations →
         Dict.get data key = Some value →
         Dict.get en_us key = Some value →
         ¬ in_exemptions intentionally_untranslated lang key →
         ∃ before listed after,
           report run
             = before ++ untranslated_report en_us lang listed ++ after
           ∧ NoDup listed
           ∧ ∀ key', key' ∈ listed
               ↔ ∃ value', Dict.get data key' = Some value'
                           ∧ Dict.get en_us key' = Some value'
                           ∧ ¬ in_exemptions intentionally_untranslated
                                 lang key').
Proof.
  intros Hsub Hwf run. subst run.
  rewrite check_untranslated_strings_eq by done.
  pose proof (all_translated_existsb intentionally_untranslated en_us
                translations Hwf) as Hall.
  destruct (existsb _ translations).
  - assert (¬ all_translated intentionally_untranslated en_us translations)
      as Hnot by (rewrite <-Hall; done).
    split; [|split].
    + split; [intros [=]|done].
    + split; [intros [=]|done].
    + intros _. split; [done|]. intros lang data key value Hin Hdata Hen Hex.
      apply exempted_false in Hex.
      destruct (bind_elem_of_split
                  (untranslated_block seed intentionally_untranslated en_us)
                  _ _ Hin) as (before & after & Heq).
      exists before,
        (set_iter seed
           (untranslated_of intentionally_untranslated en_us lang data)),
        after.
      split; [|split].
      * unfold report. cbn [fst]. rewrite Heq. unfold untranslated_block.
        cbn [fst snd]. rewrite (proj2 (set_nonempty_true _)); [done|].
        intros Hempty. apply (not_elem_of_empty (C:=gset string) key).
        rewrite <-Hempty. apply elem_of_untranslated_of; eauto.
      * apply set_iter_NoDup.
      * intros key'. rewrite set_iter_elem_of.
        rewrite elem_of_untranslated_of by eauto.
        by setoid_rewrite exempted_false.
  - assert (all_translated intentionally_untranslated en_us translations)
      as Hyes by (by apply Hall).
    repeat split; auto; done.
Qed.

Lemma not_keys_subset_cons en_us lang (data : dict) translations :
  Dict.keys data ⊆ Dict.keys en_us →
  ¬ keys_subset en_us ((lang, data) :: translations) →
  ¬ keys_subset en_us translations.
Proof.
  intros Hdata Hnot Hsub. apply Hnot. intros lang' data' Hin.
  apply elem_of_cons in Hin as [[= -> ->]|Hin]; [done|]. by eapply Hsub.
Qed.

(** Called on tables with an extra key, [check_untranslated_strings] ends in
    the [KeyError] of the first such key. *)
Lemma check_untranslated_strings_key_error seed intentionally_untranslated
    en_us translations :
  ¬ keys_subset en_us translations →
  ∃ lang data key,
    (lang, data) ∈ translations ∧ key ∈ Dict.keys data
    ∧ (key ∉ Dict.keys en_us)
    ∧ outcome (check_untranslated_strings seed
                 (Content intentionally_untranslated) en_us translations)
      = inl (KeyError key).
Proof.
  rewrite keys_subset_Forall.
  intros (before & [lang data] & after & -> & Hbefore & Hdata)%first_failing;
    [|apply _].
  cbn [snd] in Hdata. rewrite extra_keys_of_empty in Hdata.
  destruct (scan_items_key_error intentionally_untranslated en_us
              lang data ∅ Hdata) as (key & Hkey & Hn & Hscan).
  exists lang, data, key. split; [set_solver|]. split; [done|]. split; [done|].
  unfold check_untranslated_strings, read_json_file.
  rewrite mret_bind, outcome_bind.
  rewrite (for_in_first_raise _ _ _ _ (KeyError key)); [done| |].
  - intros [lang' data'] found Hin. rewrite (untranslated_body_eq seed).
    + eauto.
    + rewrite Forall_forall in Hbefore.
      by apply extra_keys_of_empty, (Hbefore (lang', data')).
  - intros found. by rewrite outcome_bind, Hscan.
Qed.

(** ** [check_order_of_strings] *)

(** C3.  [check_order_of_strings] emits its one confirmation line and
    returns exactly when, for every language, the reference keys present in
    the language equal, as a list, the language's keys present in the
    reference.  Otherwise it raises at the first language whose lists differ,
    naming that language, having emitted nothing and without looking at the
    languages after it. *)
Theorem check_order_of_strings_spec en_us translations :
  let all_match :=
    ∀ lang data, (lang, data) ∈ translations → order_matches en_us data in
  let confirmation :=
    "✅ The order of strings in each translation file matches en_us.json" in
  (check_order_of_strings en_us translations = ([confirmation], inr ())
   ↔ all_match)
  ∧ (outcome (check_order_of_strings en_us translations) = inr ()
     ↔ all_match)
  ∧ (∀ before lang data after,
       translations = before ++ (lang, data) :: after →
       (∀ lang' data', (lang', data') ∈ before → order_matches en_us data') →
       ¬ order_matches en_us data →
       check_order_of_strings en_us translations
       = ([], inl (order_error lang)))
  ∧ (¬ all_match →
     ∃ before lang data after,
       translations = before ++ (lang, data) :: after
       ∧ (∀ lang' data', (lang', data') ∈ before → order_matches en_us data')
       ∧ ¬ order_matches en_us data
       ∧ check_order_of_strings en_us translations
         = ([], inl (order_error lang))).
Proof.
  intros all_match confirmation.
  assert (∀ before lang data after,
    translations = before ++ (lang, data) :: after →
    (∀ lang' data', (lang', data') ∈ before → order_matches en_us data') →
    ¬ order_matches en_us data →
    check_order_of_strings en_us translations
    = ([], inl (order_error lang))) as Hfirst.
  { intros before lang data after -> Hbefore Hdata.
    unfold check_order_of_strings.
    rewrite (for_each_silent_raise _ _ _ _ (order_error lang)); [done| |].
    - intros [lang' data'] Hin. rewrite decide_False; [done|].
      intros Hne. by apply Hne, (Hbefore lang').
    - by rewrite decide_True. }
  assert (all_match →
    check_order_of_strings en_us translations = ([confirmation], inr ()))
    as Hall.
  { intros Hall. unfold check_order_of_strings.
    rewrite for_each_silent; [done|].
    intros [lang data] Hin. rewrite decide_False; [done|].
    intros Hne. by apply Hne, (Hall lang). }
  assert (¬ all_match →
    ∃ before lang data after,
      translations = before ++ (lang, data) :: after
      ∧ (∀ lang' data', (lang', data') ∈ before → order_matches en_us data')
      ∧ ¬ order_matches en_us data
      ∧ check_order_of_strings en_us translations
        = ([], inl (order_error lang))) as Hnot.
  { intros Hnot.
    destruct (first_failing (λ entry, order_matches en_us entry.2)
                translations)
      as (before & [lang data] & after & Heq & Hbefore & Hdata).
    { intros HF. apply Hnot. intros lang data Hin.
      rewrite Forall_forall in HF. apply (HF (lang, data) Hin). }
    rewrite Forall_forall in Hbefore.
    assert (∀ lang' data', (lang', data') ∈ before
                           → order_matches en_us data') as Hbefore'.
    { intros lang' data' Hin. apply (Hbefore (lang', data') Hin). }
    exists before, lang, data, after. eauto 10. }
  destruct (decide (Forall (λ entry, order_matches en_us entry.2)
                      translations)) as [HF|HF].
  - assert all_match as Hyes.
    { intros lang data Hin. rewrite Forall_forall in HF.
      apply (HF (lang, data) Hin). }
    split; [|split; [|split]]; [| |exact Hfirst|exact Hnot].
    + split; auto.
    + split; [done|]. intros _. by rewrite (Hall Hyes).
  - assert (¬ all_match) as Hno.
    { intros Hyes. apply HF, Forall_forall. intros [lang data] Hin.
      by apply (Hyes lang). }
    destruct (Hnot Hno) as (before & lang & data & after & _ & _ & _ & Heq).
    split; [|split; [|split]]; [| |exact Hfirst|exact Hnot].
    + split; [|done]. rewrite Heq. intros [=].
    + split; [|done]. rewrite Heq. intros [=].
Qed.

(** ** [show_translation_stats] *)

Example percentage_half : percentage 1 2 = "50.00".
Proof. vm_compute. reflexivity. Qed.

Example percentage_third : percentage 1 3 = "33.33".
Proof. vm_compute. reflexivity. Qed.

Example percentage_two_thirds : percentage 2 3 = "66.67".
Proof. vm_compute. reflexivity. Qed.

(** [1 / 800 * 100] is the float [0.125], a tie, printed to the even side. *)
Example percentage_tie : percentage 1 800 = "0.12".
Proof. vm_compute. reflexivity. Qed.

(** [7 / 1600 * 100] is a float just above [0.4375]. *)
Example percentage_inexact : percentage 7 1600 = "0.44".
Proof. vm_compute. reflexivity. Qed.

Example percentage_all : percentage 1234 1234 = "100.00".
Proof. vm_compute. reflexivity. Qed.

(** What [format_2f] prints is nearest to a hundred times the float: for a
    float [m * 2^e] with a fractional part, [round_half_even (100 * m) e]
    is within a half of [100 * m * 2^e], and [round_half_even] is exact for
    the others. *)
Lemma round_half_even_nearest (m e : Z) :
  (e < 0)%Z →
  (2 * Z.abs (Float.round_half_even m e * 2 ^ (- e) - m) ≤ 2 ^ (- e))%Z.
Proof.
  intros He. unfold Float.round_half_even. rewrite decide_False by lia.
  assert (0 < 2 ^ (- e))%Z as Hd by (apply Z.pow_pos_nonneg; lia).
  pose proof (Z.div_mod m (2 ^ (- e)) ltac:(lia)) as Hm.
  pose proof (Z.mod_pos_bound m (2 ^ (- e)) Hd) as Hr.
  set (d := (2 ^ (- e))%Z) in *.
  set (q := (m `div` d)%Z) in *. set (r := (m `mod` d)%Z) in *.
  destruct (Z.compare_spec (2 * r) d); [destruct (Z.even q)|..]; nia.
Qed.

Lemma round_half_even_exact (m e : Z) :
  (0 ≤ e)%Z → Float.round_half_even m e = (m * 2 ^ e)%Z.
Proof. intros He. unfold Float.round_half_even. by rewrite decide_True. Qed.

Lemma true_divide_nonzero (a b : nat) :
  b ≠ 0%nat →
  true_divide a b
  = mret (Float.div (Float.of_int (Z.of_nat a)) (Float.of_int (Z.of_nat b))).
Proof. intros Hb. unfold true_divide. by rewrite decide_False. Qed.

Lemma show_translation_stats_nonempty en_us translations :
  en_us ≠ [] →
  show_translation_stats en_us translations
  = (stats_head en_us ++ (stats_line en_us <$> translations) ++ [EmptyString],
     inr ()).
Proof.
  intros Hen. unfold show_translation_stats. io_simpl.
  rewrite (for_each_ext _ (λ entry, gh_summary (stats_line en_us entry))).
  - rewrite for_each_gh_summary. io_simpl. reflexivity.
  - intros [lang data] _. rewrite true_divide_nonzero; [by io_simpl|].
    by destruct en_us.
Qed.

(** The corrected C4.  For a reference table that is not empty,
    [show_translation_stats] returns after emitting the two header lines,
    the line of the reference, one line for each language in turn (its code,
    its number of entries and [percentage]) and an empty line.  It returns
    normally exactly when the reference is not empty or there is no
    language; for an empty reference and at least one language it raises
    [ZeroDivisionError] after the three first lines. *)
Theorem show_translation_stats_spec en_us translations :
  (en_us ≠ [] →
   show_translation_stats en_us translations
   = (stats_head en_us ++ (stats_line en_us <$> translations)
      ++ [EmptyString], inr ()))
  ∧ (translations = [] →
     show_translation_stats en_us translations
     = (stats_head en_us ++ [EmptyString], inr ()))
  ∧ (en_us = [] → translations ≠ [] →
     show_translation_stats en_us translations
     = (stats_head en_us, inl ZeroDivisionError))
  ∧ (outcome (show_translation_stats en_us translations) = inr ()
     ↔ en_us ≠ [] ∨ translations = []).
Proof.
  assert (translations = [] →
    show_translation_stats en_us translations
    = (stats_head en_us ++ [EmptyString], inr ())) as Hnone.
  { intros ->. reflexivity. }
  assert (en_us = [] → translations ≠ [] →
    show_translation_stats en_us translations
    = (stats_head en_us, inl ZeroDivisionError)) as Hraise.
  { intros -> Htr. destruct translations as [|[lang data] translations];
      [done|].
    unfold show_translation_stats. io_simpl.
    rewrite for_each_cons. unfold true_divide. cbn [length].
    rewrite decide_True by done. io_simpl. reflexivity. }
  split; [apply show_translation_stats_nonempty|].
  split; [exact Hnone|]. split; [exact Hraise|].
  destruct en_us as [|item en_us].
  - destruct translations as [|entry translations].
    + rewrite Hnone by done. split; auto.
    + rewrite Hraise by done. split; [intros [=]|]. by intros [?|?].
  - rewrite show_translation_stats_nonempty by done. split; auto.
Qed.

(** With an empty reference and one language, [show_translation_stats]
    raises. *)
Lemma show_translation_stats_raises :
  show_translation_stats [] [("de", [("a", "b")])]
  = ([ "| Language | Translated | % |";
       "| --- | --- | --- |";
       "| en_us | 0 | 100.00% |" ],
     inl ZeroDivisionError).
Proof. vm_compute. reflexivity. Qed.

(** ** Loading the tables *)

Lemma insert_by_name_perm (p : path) (l : list path) :
  insert_by_name p l ≡ₚ p :: l.
Proof.
  induction l as [|q l IH]; cbn [insert_by_name]; [done|].
  destruct (String.leb (name p) (name q)); [done|].
  by rewrite IH, Permutation_swap.
Qed.

Lemma sorted_by_name_perm (l : list path) : sorted_by_name l ≡ₚ l.
Proof.
  unfold sorted_by_name. induction l as [|p l IH]; cbn [foldr]; [done|].
  by rewrite insert_by_name_perm, IH.
Qed.

Lemma Dict_set_elem_of {V} (d : Dict.t V) (k : string) (v : V) entry :
  entry ∈ Dict.set d k v → entry ∈ d ∨ entry = (k, v).
Proof.
  induction d as [|[k' v'] d IH]; cbn [Dict.set].
  - intros ->%list_elem_of_singleton. by right.
  - destruct (decide (k' = k)) as [->|Hne].
    + intros [->|Hin]%elem_of_cons; [by right|]. left. by right.
    + intros [->|Hin]%elem_of_cons; [left; left|].
      destruct (IH Hin); [left; by right|by right].
Qed.

Lemma Dict_pop_keys {V} (d : Dict.t V) (k k' : string) :
  k' ∈ Dict.keys (Dict.pop d k) ↔ k' ∈ Dict.keys d ∧ k' ≠ k.
Proof.
  unfold Dict.keys, Dict.pop. rewrite !list_elem_of_fmap. split.
  - intros ([k0 v] & -> & [Hne Hin]%list_elem_of_filter).
    split; [by exists (k0, v)|done].
  - intros [([k0 v] & -> & Hin) Hne]. exists (k0, v).
    split; [done|]. by apply list_elem_of_filter.
Qed.

Lemma strip_reserved_keys (data : dict) (key : string) :
  key ∈ Dict.keys (strip_reserved data)
  ↔ key ∈ Dict.keys data ∧ key ∉ reserved_keys.
Proof.
  unfold strip_reserved, reserved_keys. rewrite !Dict_pop_keys.
  rewrite !not_elem_of_cons, elem_of_nil. naive_solver.
Qed.

Lemma load_translation_skip (p : path) translations :
  is_translation p = false → load_translation p translations = mret translations.
Proof.
  unfold is_translation, load_translation. by intros ->.
Qed.

Lemma load_translation_content (p : path) translations data :
  is_translation p = true → contents p = Content data →
  load_translation p translations
  = mret (Dict.set translations (Str.removesuffix ".json" (name p))
            (strip_reserved data)).
Proof.
  unfold is_translation, load_translation. intros -> ->. reflexivity.
Qed.

Lemma load_translation_no_content (p : path) translations :
  is_translation p = true → is_content (contents p) = false →
  ∃ e, load_translation p translations = raise e.
Proof.
  unfold is_translation, load_translation. intros -> Hc.
  destruct (contents p); [by eexists|by eexists|done].
Qed.

Lemma load_translation_report (p : path) translations :
  report (load_translation p translations) = [].
Proof.
  unfold load_translation.
  destruct (_ && _); [|done]. by destruct (contents p).
Qed.

Lemma load_loop_loaded_from (fs : filesystem) translations :
  outcome (for_in (sorted_by_name (rglob_json fs)) load_translation [])
    = inr translations →
  Forall (loaded_from fs) translations.
Proof.
  apply (for_in_invariant (Forall (loaded_from fs))); [constructor|].
  intros p acc acc' Hp Hacc.
  rewrite sorted_by_name_perm in Hp.
  destruct (is_translation p) eqn:Htr.
  - destruct (contents p) as [| |data] eqn:Hc.
    + destruct (load_translation_no_content p acc) as [e ->];
        [done|by rewrite Hc|done].
    + destruct (load_translation_no_content p acc) as [e ->];
        [done|by rewrite Hc|done].
    + rewrite (load_translation_content p acc data) by done.
      intros [= <-]. apply Forall_forall. intros entry Hin.
      apply Dict_set_elem_of in Hin as [Hin| ->].
      * rewrite Forall_forall in Hacc. by apply Hacc.
      * by exists p, data.
  - rewrite load_translation_skip by done. by intros [= <-].
Qed.

Lemma load_loop_returns (fs : filesystem) :
  (∃ translations,
     outcome (for_in (sorted_by_name (rglob_json fs)) load_translation [])
     = inr translations)
  ↔ ∀ p, p ∈ rglob_json fs → is_translation p = true
         → is_content (contents p) = true.
Proof.
  rewrite (for_in_returns
             (λ p, negb (is_translation p) || is_content (contents p))).
  - rewrite Forall_forall. setoid_rewrite sorted_by_name_perm.
    split; intros H q Hq.
    + intros Htr. specialize (H q Hq). by rewrite Htr in H.
    + destruct (is_translation q) eqn:Htr; [|done]. by apply H.
  - intros q acc _ Hok. destruct (is_translation q) eqn:Htr.
    + destruct (contents q) as [| |data] eqn:Hc; [done|done|].
      rewrite (load_translation_content q acc data) by done. by eexists.
    + rewrite load_translation_skip by done. by eexists.
  - intros q acc _ Hko. destruct (is_translation q) eqn:Htr; [|done].
    destruct (load_translation_no_content q acc) as [e ->]; [done|done|].
    by exists e.
Qed.

(** The corrected C5.  Loading emits nothing, and a reserved key that a
    file lacks is no error: when [en_us.json] and every translation file
    hold a table, loading returns, whatever the keys of the tables.  The
    reference table is the content of [en_us.json] as it is, reserved keys
    included; every translation table is the content of a translation file
    less the three reserved keys, so none of them has a reserved key. *)
Theorem load_tables_spec (fs : filesystem) :
  report (load_tables fs) = []
  ∧ (is_content (en_us_json fs) = true →
     (∀ p, p ∈ rglob_json fs → is_translation p = true
           → is_content (contents p) = true) →
     ∃ tables, outcome (load_tables fs) = inr tables)
  ∧ (∀ en_us translations,
       outcome (load_tables fs) = inr (en_us, translations) →
       en_us_json fs = Content en_us
       ∧ ∀ lang data,
           (lang, data) ∈ translations →
           loaded_from fs (lang, data)
           ∧ ∀ key, key ∈ reserved_keys → key ∉ Dict.keys data).
Proof.
  unfold load_tables. destruct (en_us_json fs) as [| |en] eqn:Hen.
  - split; [done|]. split; [|done]. by intros [=].
  - split; [done|]. split; [|done]. by intros [=].
  - cbn [read_json_file]. rewrite mret_bind.
    rewrite report_bind, outcome_bind.
    split; [|split].
    + rewrite for_in_report_nil by (intros; apply load_translation_report).
      by destruct (outcome _).
    + intros _ [translations ->]%load_loop_returns. by eexists.
    + intros en_us translations.
      destruct (outcome (for_in _ _ _)) as [e|loaded] eqn:Hloop; [done|].
      intros [= <- <-]. split; [done|]. intros lang data Hin.
      apply load_loop_loaded_from in Hloop.
      rewrite Forall_forall in Hloop. specialize (Hloop _ Hin).
      split; [done|]. intros key Hkey.
      destruct Hloop as (p & d & _ & _ & _ & [= _ ->]).
      rewrite strip_reserved_keys. tauto.
Qed.

(** The reference table keeps a reserved key that [en_us.json] has, while
    the translation loses it. *)
Lemma load_tables_keeps_reference_keys :
  load_tables
    (FileSystem
       (Content [("language.name", "English"); ("a", "X")])
       [Path "de_de.json" true
          (Content [("language.name", "Deutsch"); ("a", "Y")])]
       (Content []))
  = ([], inr ([("language.name", "English"); ("a", "X")],
              [("de_de", [("a", "Y")])])).
Proof. vm_compute. reflexivity. Qed.

(** ** Strings *)

Lemma string_app_nil_l (s : string) : EmptyString +:+ s = s.
Proof. reflexivity. Qed.

Lemma string_app_cons (c : ascii) (a b : string) :
  String c a +:+ b = String c (a +:+ b).
Proof. reflexivity. Qed.

Lemma prefix_spec (needle hay : string) :
  String.prefix needle hay = true ↔ ∃ rest, hay = needle +:+ rest.
Proof.
  revert hay. induction needle as [|c needle IH]; intros hay.
  - cbn. destruct hay; split; eauto.
  - destruct hay as [|c' hay]; cbn.
    + split; [done|]. by intros [rest [=]].
    + destruct (ascii_dec c c') as [->|Hne].
      * rewrite IH. split; intros [rest Hrest]; exists rest.
        -- by rewrite Hrest.
        -- by injection Hrest.
      * split; [done|]. intros [rest [=]]. done.
Qed.

Lemma contains_unfold (needle hay : string) :
  Str.contains needle hay
  = String.prefix needle hay
    || match hay with
       | EmptyString => false
       | String _ hay' => Str.contains needle hay'
       end.
Proof. by destruct hay. Qed.

(** [Str.contains] decides [occurs]. *)
Lemma contains_occurs (needle hay : string) :
  Str.contains needle hay = true ↔ occurs needle hay.
Proof.
  unfold occurs. split.
  - induction hay as [|c hay IH]; cbn [Str.contains];
      rewrite orb_true_iff, prefix_spec.
    + intros [[rest ->]|[=]]. by exists EmptyString, rest.
    + intros [[rest ->]|Hin]; [by exists EmptyString, rest|].
      destruct (IH Hin) as (before & after & ->).
      by exists (String c before), after.
  - intros (before & after & ->).
    induction before as [|c before IH].
    + rewrite string_app_nil_l, contains_unfold, orb_true_iff. left.
      apply prefix_spec. eauto.
    + rewrite string_app_cons, contains_unfold, IH. apply orb_true_r.
Qed.

Lemma list_ascii_of_string_app (a b : string) :
  String.list_ascii_of_string (a +:+ b)
  = String.list_ascii_of_string a ++ String.list_ascii_of_string b.
Proof.
  induction a as [|c a IH]; [done|].
  rewrite string_app_cons. cbn [String.list_ascii_of_string app].
  by rewrite IH.
Qed.

Lemma list_ascii_of_string_inj (a b : string) :
  String.list_ascii_of_string a = String.list_ascii_of_string b → a = b.
Proof.
  intros H. rewrite <-(String.string_of_list_ascii_of_string a),
    <-(String.string_of_list_ascii_of_string b). by rewrite H.
Qed.

Lemma list_ascii_of_string_length (a : string) :
  length (String.list_ascii_of_string a) = String.length a.
Proof. induction a as [|c a IH]; cbn; [done|]. by rewrite IH. Qed.

(** Two strings that end in suffixes of one length. *)
Lemma string_app_inj_2 (a b s1 s2 : string) :
  String.length s1 = String.length s2 →
  a +:+ s1 = b +:+ s2 → a = b ∧ s1 = s2.
Proof.
  intros Hlen Heq.
  apply (f_equal String.list_ascii_of_string) in Heq.
  rewrite !list_ascii_of_string_app in Heq.
  apply app_inj_2 in Heq as [Ha Hs].
  - split; by apply list_ascii_of_string_inj.
  - by rewrite !list_ascii_of_string_length.
Qed.

Lemma string_app_assoc (a b c : string) : (a +:+ b) +:+ c = a +:+ b +:+ c.
Proof.
  induction a as [|x a IH]; [done|]. by rewrite !string_app_cons, IH.
Qed.

(** ** [check_known_issues] *)

Section known_issues.
Context (str_lower : string → string).

Lemma has_value_with_get (data : dict) (key : string) (test : string → bool) :
  has_value_with data key test = true
  ↔ ∃ value, Dict.get data key = Some value ∧ test value = true.
Proof.
  unfold has_value_with. destruct (Dict.get data key) as [value|].
  - split; [eauto|]. by intros (? & [= <-] & ?).
  - split; [done|]. by intros (? & [=] & _).
Qed.

(** The run of [check_known_issues] in closed form. *)
Lemma check_known_issues_eq en_us translations :
  check_known_issues str_lower en_us translations
  = if decide (known_issues_report str_lower translations = []) then
      (["✅ No known issues found in any translation files"], inr ())
    else
      (known_issues_report str_lower translations,
       inl (Exception
              "Found known issues in one or more translation files")).
Proof.
  unfold check_known_issues.
  rewrite (for_in_flag typos_report).
  - rewrite bind_inr.
    rewrite (for_in_flag
               (λ entry, boatfly_report str_lower entry ++ radar_report entry)).
    + rewrite bind_inr. unfold report, outcome. cbn [fst snd orb].
      unfold known_issues_report.
      set (typos := mbind (M:=list) typos_report translations).
      set (difficult := mbind (M:=list) _ translations).
      destruct (decide (typos ++ difficult = [])) as [Hnil|Hsome].
      * apply app_eq_nil in Hnil as [-> ->]. reflexivity.
      * assert (bool_decide (typos ≠ []) || bool_decide (difficult ≠ [])
                = true) as ->.
        { rewrite orb_true_iff, !bool_decide_eq_true.
          destruct typos; [right|left; done]. by intros ->. }
        unfold raise. cbn [fst snd]. by rewrite app_nil_r.
    + intros [lang data] flag _. unfold boatfly_report, radar_report.
      cbn [fst snd].
      destruct (has_value_with data radar_key radar_colors) eqn:Hradar.
      * apply has_value_with_get in Hradar as (value & Hget & _).
        rewrite (getitem_Some _ _ _ Hget), Hget.
        destruct (has_value_with data boatfly_key _); io_simpl;
          by destruct flag.
      * destruct (has_value_with data boatfly_key _); io_simpl;
          by destruct flag.
  - intros [lang data] flag _. unfold typos_report. cbn [fst snd].
    apply for_in_flag. intros [key value] flag' _. cbn [fst snd].
    apply for_in_flag. intros [typo correct] flag'' _.
    unfold typo_report. cbn [fst snd].
    destruct (Str.contains typo value); io_simpl; by destruct flag''.
Qed.

Lemma emitted_together_trans (a b c : list string) :
  emitted_together a b → emitted_together b c → emitted_together a c.
Proof.
  intros (b1 & a1 & ->) (b2 & a2 & ->).
  exists (b2 ++ b1), (a1 ++ a2). by rewrite !app_assoc.
Qed.

Lemma emitted_together_bind {A} (f : A → list string) (l : list A) (x : A) :
  x ∈ l → emitted_together (f x) (l ≫= f).
Proof. apply bind_elem_of_split. Qed.

Lemma emitted_together_app_l (a b c : list string) :
  emitted_together a b → emitted_together a (b ++ c).
Proof.
  intros (b1 & a1 & ->). exists b1, (a1 ++ c). by rewrite !app_assoc.
Qed.

(** Two strings that end differently differ. *)
Lemma string_ends_differ (a b s1 s2 : string) :
  String.length s1 = String.length s2 → s1 ≠ s2 → a +:+ s1 ≠ b +:+ s2.
Proof. intros Hlen Hne Heq. by apply string_app_inj_2 in Heq as [_ ?]. Qed.

Lemma radar_header_end (lang : string) :
  ∃ a, radar_header lang = a +:+ "s:".
Proof.
  unfold radar_header.
  change " contains untranslated colors:"
    with (" contains untranslated color" +:+ "s:").
  rewrite <-!string_app_assoc. by eexists.
Qed.

Lemma radar_header_inj (lang lang' : string) :
  radar_header lang = radar_header lang' → lang = lang'.
Proof.
  unfold radar_header. intros Heq%(inj (String.append _)).
  by apply string_app_inj_2 in Heq as [? _].
Qed.

Lemma radar_header_start (lang : string) :
  ∃ rest, radar_header lang = String "226"%char (String "154"%char rest).
Proof. unfold radar_header. rewrite !string_app_cons. by eexists. Qed.

Lemma radar_header_not_fence (lang : string) :
  radar_header lang ≠ "```json" ∧ radar_header lang ≠ "```".
Proof. destruct (radar_header_start lang) as [rest ->]. done. Qed.

Lemma radar_header_not_string (lang a : string) :
  radar_header lang ≠ "  " +:+ a.
Proof.
  destruct (radar_header_start lang) as [rest ->].
  by rewrite string_app_cons.
Qed.

Lemma radar_header_not_typo (lang lang' key value : string) pair :
  radar_header lang ∉ typo_report lang' key value pair.
Proof.
  unfold typo_report. destruct (Str.contains _ _); [|apply not_elem_of_nil].
  rewrite !not_elem_of_cons. split; [|split; [|split; [|split]]].
  - destruct (radar_header_end lang) as [a ->].
    rewrite <-!string_app_assoc. by apply string_ends_differ.
  - apply radar_header_not_fence.
  - apply radar_header_not_string.
  - apply radar_header_not_fence.
  - apply not_elem_of_nil.
Qed.

Lemma radar_header_not_boatfly (lang : string) entry :
  radar_header lang ∉ boatfly_report str_lower entry.
Proof.
  unfold boatfly_report.
  destruct (has_value_with _ _ _); [|apply not_elem_of_nil].
  rewrite not_elem_of_cons. split; [|apply not_elem_of_nil].
  destruct (radar_header_end lang) as [a ->].
  change " incorrectly suggests using the shift (sneak) key instead of ctrl (sprint) to descend"
    with (" incorrectly suggests using the shift (sneak) key instead of ctrl (sprint) to desce" +:+ "nd").
  rewrite <-!string_app_assoc. by apply string_ends_differ.
Qed.

Lemma radar_header_in_radar_report (lang : string) entry :
  radar_header lang ∈ radar_report entry
  ↔ entry.1 = lang ∧ has_value_with entry.2 radar_key radar_colors = true.
Proof.
  unfold radar_report. destruct (has_value_with _ _ _).
  - rewrite !elem_of_cons, elem_of_nil. split.
    + intros [Heq|[Heq|[Heq|[Heq|[]]]]].
      * by apply radar_header_inj in Heq.
      * by apply radar_header_not_fence in Heq.
      * by apply radar_header_not_string in Heq.
      * by apply radar_header_not_fence in Heq.
    + intros [-> _]. by left.
  - rewrite elem_of_nil. naive_solver.
Qed.

Lemma radar_colors_occurs (value : string) :
  radar_colors value = true
  ↔ occurs "§cred§r" value ∨ occurs "§agreen§r" value
    ∨ occurs "§7gray§r" value.
Proof.
  unfold radar_colors. rewrite !orb_true_iff, !contains_occurs. tauto.
Qed.

(** C8.  The table [known_typos] has eight entries, and for each of them
    [check_known_issues] flags every string in which the typo occurs: it
    emits the warning naming the key, the correct word and the typo, then
    the string between the fences, and it ends by raising.  With the entry
    for LegitKillaura, the string [Has LegitKillaura] is flagged so. *)
Theorem known_typos_rule en_us :
  length known_typos = 8%nat
  ∧ (∀ translations lang data key value typo correct,
       (lang, data) ∈ translations →
       (key, value) ∈ data →
       (typo, correct) ∈ known_typos →
       occurs typo value →
       outcome (check_known_issues str_lower en_us translations)
         = inl (Exception
                  "Found known issues in one or more translation files")
       ∧ emitted_together
           [ "⚠ In " +:+ lang +:+ ".json string " +:+ key
               +:+ ", the word '" +:+ correct
               +:+ "' is incorrectly translated as '" +:+ typo +:+ "':";
             "```json";
             "  " +:+ quoted key +:+ ": " +:+ quoted value;
             "```" ]
           (report (check_known_issues str_lower en_us translations)))
  ∧ ("LegitKillaura", "KillauraLegit") ∈ known_typos
  ∧ check_known_issues str_lower en_us
      [("de", [("k", "Has LegitKillaura")])]
    = ([ "⚠ In de.json string k, the word 'KillauraLegit' is incorrectly translated as 'LegitKillaura':";
         "```json";
         "  " +:+ quoted "k" +:+ ": " +:+ quoted "Has LegitKillaura";
         "```" ],
       inl (Exception
              "Found known issues in one or more translation files")).
Proof.
  split; [done|]. split; [|split; [|by vm_compute]].
  - intros translations lang data key value typo correct
      Hin Hitem Hpair Hocc%contains_occurs.
    assert (emitted_together (typo_report lang key value (typo, correct))
              (known_issues_report str_lower translations)) as Hemit.
    { apply emitted_together_app_l.
      eapply emitted_together_trans;
        [|apply (emitted_together_bind typos_report _ _ Hin)].
      unfold typos_report. cbn [fst snd].
      eapply emitted_together_trans;
        [|apply (emitted_together_bind _ _ _ Hitem)].
      cbn [fst snd].
      apply (emitted_together_bind _ _ _ Hpair). }
    unfold typo_report in Hemit. cbn [fst snd] in Hemit.
    rewrite Hocc in Hemit.
    rewrite check_known_issues_eq.
    destruct (decide (known_issues_report str_lower translations = []))
      as [Hnil|Hsome]; [|done].
    rewrite Hnil in Hemit. destruct Hemit as (before & after & Heq).
    by destruct before.
  - unfold known_typos. set_solver.
Qed.

Lemma radar_header_in_report en_us translations (lang : string) :
  radar_header lang ∈ report (check_known_issues str_lower en_us translations)
  ↔ ∃ data, (lang, data) ∈ translations
            ∧ has_value_with data radar_key radar_colors = true.
Proof.
  rewrite check_known_issues_eq.
  assert (radar_header lang ∈ known_issues_report str_lower translations
          ↔ ∃ data, (lang, data) ∈ translations
              ∧ has_value_with data radar_key radar_colors = true) as Hin.
  { unfold known_issues_report. rewrite elem_of_app, !list_elem_of_bind.
    split.
    - intros [(entry & Hline & _)|([lang' data] & Hline & Hentry)].
      + unfold typos_report in Hline.
        apply list_elem_of_bind in Hline as (item & Hline & _).
        apply list_elem_of_bind in Hline as (pair & Hline & _).
        by apply radar_header_not_typo in Hline.
      + apply elem_of_app in Hline as [Hline|Hline].
        * by apply radar_header_not_boatfly in Hline.
        * apply radar_header_in_radar_report in Hline as [Hlang Hflag].
          cbn [fst snd] in *. subst lang'. eauto.
    - intros (data & Hentry & Hflag). right. exists (lang, data).
      split; [|done]. apply elem_of_app. right.
      by apply radar_header_in_radar_report. }
  destruct (decide (known_issues_report str_lower translations = []))
    as [Hnil|Hsome]; [|done].
  rewrite <-Hin, Hnil. unfold report. cbn [fst].
  rewrite list_elem_of_singleton, elem_of_nil.
  split; [|done]. destruct (radar_header_start lang) as [rest ->]. done.
Qed.

(** C9.  [check_known_issues] emits the warning about untranslated colors
    for a language exactly when a table of that language has the radar key
    with a value in which the red, the green or the gray code occurs; it
    then ends by raising.  No other code is looked for: a radar string in
    which none of the three occurs is not flagged, as with the orange code
    alone. *)
Theorem radar_rule en_us translations (lang : string) :
  (radar_header lang
     ∈ report (check_known_issues str_lower en_us translations)
   ↔ ∃ data value,
       (lang, data) ∈ translations
       ∧ Dict.get data radar_key = Some value
       ∧ (occurs "§cred§r" value ∨ occurs "§agreen§r" value
          ∨ occurs "§7gray§r" value))
  ∧ (radar_header lang
       ∈ report (check_known_issues str_lower en_us translations) →
     outcome (check_known_issues str_lower en_us translations)
     = inl (Exception
              "Found known issues in one or more translation files"))
  ∧ ((∀ data value,
        (lang, data) ∈ translations →
        Dict.get data radar_key = Some value →
        ¬ occurs "§cred§r" value ∧ ¬ occurs "§agreen§r" value
        ∧ ¬ occurs "§7gray§r" value) →
     radar_header lang
       ∉ report (check_known_issues str_lower en_us translations))
  ∧ check_known_issues str_lower en_us
      [(lang, [(radar_key, "§6orange§r")])]
    = (["✅ No known issues found in any translation files"], inr ()).
Proof.
  assert (radar_header lang
            ∈ report (check_known_issues str_lower en_us translations)
          ↔ ∃ data value,
              (lang, data) ∈ translations
              ∧ Dict.get data radar_key = Some value
              ∧ (occurs "§cred§r" value ∨ occurs "§agreen§r" value
                 ∨ occurs "§7gray§r" value)) as Hiff.
  { rewrite radar_header_in_report. split.
    - intros (data & Hin & (value & Hget & Hc)%has_value_with_get).
      exists data, value. by rewrite <-radar_colors_occurs.
    - intros (data & value & Hin & Hget & Hc). exists data.
      split; [done|]. apply has_value_with_get. exists value.
      by rewrite radar_colors_occurs. }
  split; [exact Hiff|]. split; [|split].
  - intros Hin. rewrite check_known_issues_eq in *.
    destruct (decide (known_issues_report str_lower translations = []));
      [|done].
    unfold report in Hin. cbn [fst] in Hin.
    apply list_elem_of_singleton in Hin.
    destruct (radar_header_start lang) as [rest Hrest].
    by rewrite Hrest in Hin.
  - intros Hnone. rewrite Hiff. intros (data & value & Hin & Hget & Hc).
    destruct (Hnone data value Hin Hget) as (? & ? & ?). tauto.
  - rewrite check_known_issues_eq. by vm_compute.
Qed.

End known_issues.

(** ** How each check can end *)

Lemma for_in_raise_inv {A S} (body : A → S → IO S) (l : list A) (s : S)
    (e : exn) :
  outcome (for_in l body s) = inl e →
  ∃ x s', x ∈ l ∧ outcome (body x s') = inl e.
Proof.
  revert s. induction l as [|x l IH]; intros s; [done|].
  cbn [for_in]. rewrite outcome_bind.
  destruct (outcome (body x s)) as [e'|s'] eqn:Hx.
  - intros [= ->]. exists x, s. split; [left|done].
  - intros (y & t & Hy & Hraise)%IH. exists y, t. split; [by right|done].
Qed.

Lemma load_tables_outcome (fs : filesystem) (e : exn) :
  outcome (load_tables fs) = inl e →
  ∃ name, e = FileNotFoundError name ∨ e = JSONDecodeError name.
Proof.
  unfold load_tables.
  destruct (en_us_json fs) as [| |en]; cbn [read_json_file].
  - rewrite raise_bind. intros [= <-]. eauto.
  - rewrite raise_bind. intros [= <-]. eauto.
  - rewrite mret_bind, outcome_bind.
    destruct (outcome (for_in _ _ _)) as [e'|loaded] eqn:Hloop; [|done].
    intros [= ->]. apply for_in_raise_inv in Hloop as (p & acc & _ & Hp).
    unfold load_translation in Hp. destruct (_ && _); [|done].
    destruct (contents p) as [| |data]; cbn in Hp; [| |done];
      injection Hp as <-; eauto.
Qed.

Lemma show_translation_stats_outcome en_us translations :
  outcome (show_translation_stats en_us translations) = inr ()
  ∨ outcome (show_translation_stats en_us translations)
    = inl ZeroDivisionError.
Proof.
  destruct en_us as [|item en_us].
  - destruct translations as [|[lang data] translations]; [by left|].
    right. unfold show_translation_stats. io_simpl.
    rewrite for_each_cons. unfold true_divide. cbn [length].
    rewrite decide_True by done. by io_simpl.
  - left. by rewrite show_translation_stats_nonempty.
Qed.

Lemma check_order_of_strings_outcome en_us translations :
  outcome (check_order_of_strings en_us translations) = inr ()
  ∨ ∃ lang, outcome (check_order_of_strings en_us translations)
            = inl (order_error lang).
Proof.
  unfold check_order_of_strings.
  destruct (decide (Forall (λ entry : string * dict,
                      order_matches en_us entry.2) translations))
    as [Hall|Hnot].
  - left. rewrite for_each_silent; [done|].
    intros [lang data] Hin. rewrite decide_False; [done|].
    rewrite Forall_forall in Hall. intros Hne. apply Hne, (Hall _ Hin).
  - right. apply first_failing in Hnot
      as (before & [lang data] & after & -> & Hbefore & Hdata); [|apply _].
    exists lang.
    rewrite (for_each_silent_raise _ _ _ _ (order_error lang)); [done| |].
    + intros [lang' data'] Hin. rewrite decide_False; [done|].
      rewrite Forall_forall in Hbefore. intros Hne. apply Hne, (Hbefore _ Hin).
    + by rewrite decide_True.
Qed.

Lemma check_untranslated_strings_no_file seed
    (exemptions : file (Dict.t (list string))) en_us translations :
  is_content exemptions = false →
  ∃ e, check_untranslated_strings seed exemptions en_us translations = raise e
       ∧ ∀ key, e ≠ KeyError key.
Proof.
  unfold check_untranslated_strings.
  destruct exemptions; [| |done]; intros _; by eexists.
Qed.

(** ** [main] *)

Lemma bind_ext {A B} (m : IO A) (f g : A → IO B) :
  (∀ a, outcome m = inr a → f a = g a) → m ≫= f = m ≫= g.
Proof.
  destruct m as [lines [e|a]]; intros Hfg; [done|].
  rewrite !bind_inr, Hfg; done.
Qed.

Lemma bind_mret_unit (m : IO unit) : (m;; mret ()) = m.
Proof. destruct m as [lines [e|[]]]; [done|]. rewrite bind_inr. cbn. by rewrite app_nil_r. Qed.

Lemma run_all_returns (l : list (IO unit)) :
  Forall (λ m, outcome m = inr ()) l →
  run_all l = (concat (report <$> l), inr ()).
Proof.
  induction 1 as [|[lines [e|[]]] l Hm _ IH]; [done|done|].
  cbn [run_all fmap list_fmap concat]. by rewrite bind_inr, IH.
Qed.

Lemma run_all_first_raise (before : list (IO unit)) (c : IO unit)
    (after : list (IO unit)) (e : exn) :
  Forall (λ m, outcome m = inr ()) before →
  outcome c = inl e →
  run_all (before ++ c :: after)
  = (concat (report <$> before) ++ report c, inl e).
Proof.
  intros Hbefore Hc.
  induction Hbefore as [|[lines [e'|[]]] before Hm _ IH]; [|done|].
  - destruct c as [lines [e'|[]]]; [|done].
    cbn in Hc. injection Hc as ->. done.
  - cbn [app run_all fmap list_fmap concat]. rewrite bind_inr, IH.
    unfold report, outcome. cbn [fst snd]. by rewrite app_assoc.
Qed.

(** How a sequence of statements ends. *)
Lemma run_all_cases (l : list (IO unit)) :
  Forall (λ m, outcome m = inr ()) l
  ∨ ∃ before c after e,
      l = before ++ c :: after
      ∧ Forall (λ m, outcome m = inr ()) before
      ∧ outcome c = inl e.
Proof.
  induction l as [|m l IH]; [by left|].
  destruct (outcome m) as [e|[]] eqn:Hm.
  - right. exists [], m, l, e. by repeat constructor.
  - destruct IH as [Hall|(before & c & after & e & -> & Hbefore & Hc)].
    + left. by constructor.
    + right. exists (m :: before), c, after, e. by repeat constructor.
Qed.

Section main_lemmas.
Context (str_lower : string → string).

(** [main] is its loading followed by its checks. *)
Lemma main_eq seed fs wurst_mode :
  main str_lower seed fs wurst_mode
  = tables ← load_tables fs;
    run_all (checks str_lower seed fs wurst_mode tables.1 tables.2).
Proof.
  unfold main. apply bind_ext. intros [en_us translations] _.
  unfold checks. cbn [fst snd app run_all].
  repeat (apply bind_ext; intros [] _).
  destruct wurst_mode; cbn [run_all]; [|done].
  by rewrite bind_mret_unit.
Qed.

Lemma main_loaded seed fs wurst_mode en_us translations :
  outcome (load_tables fs) = inr (en_us, translations) →
  main str_lower seed fs wurst_mode
  = run_all (checks str_lower seed fs wurst_mode en_us translations).
Proof.
  intros Hload. rewrite main_eq.
  pose proof (for_in_report_nil load_translation
                (sorted_by_name (rglob_json fs)) []
                (λ p acc _, load_translation_report p acc)) as Hrep.
  unfold load_tables in *.
  destruct (en_us_json fs) as [| |en]; [done|done|].
  cbn [read_json_file] in *. rewrite mret_bind in *.
  destruct (for_in _ load_translation []) as [lines [e|loaded]];
    [done|].
  unfold report in Hrep. cbn [fst] in Hrep. subst lines.
  rewrite bind_inr in Hload. cbn in Hload. injection Hload as <- <-.
  rewrite bind_inr. cbn [report outcome mret IO_ret fst snd app].
  rewrite bind_inr. cbn [fst snd app]. by destruct (run_all _).
Qed.

(** The corrected C6.  When a check of [main] raises, [main] ends there
    with that exception: its report is made of the reports of the checks
    before it and of its own, and no later check runs. *)
Theorem main_stops_at_first_failure seed fs wurst_mode en_us translations
    (before : list (IO unit)) (check : IO unit) (after : list (IO unit))
    (e : exn) :
  outcome (load_tables fs) = inr (en_us, translations) →
  checks str_lower seed fs wurst_mode en_us translations
    = before ++ check :: after →
  Forall (λ m, outcome m = inr ()) before →
  outcome check = inl e →
  main str_lower seed fs wurst_mode
  = (concat (report <$> before) ++ report check, inl e).
Proof.
  intros Hload Hchecks Hbefore Hcheck.
  rewrite (main_loaded _ _ _ _ _ Hload), Hchecks.
  by apply run_all_first_raise.
Qed.

End main_lemmas.

(** A run in which [check_extra_keys] raises: the typo that
    [check_known_issues] finds in the same tables is not reported. *)
Lemma main_skips_later_checks :
  main Str.lower seed_fwd
    (FileSystem
       (Content [("a", "X")])
       [Path "de_de.json" true
          (Content [("a", "Has LegitKillaura"); ("c", "W")])]
       (Content []))
    true
  = ([ "| Language | Translated | % |";
       "| --- | --- | --- |";
       "| en_us | 1 | 100.00% |";
       "| de_de | 2 | 200.00% |";
       EmptyString;
       "⚠ de_de.json contains translations that don't exist in en_us.json (1 found):";
       "- c" ],
     inl (Exception "Found extra keys in one or more translation files"))
  ∧ check_known_issues Str.lower
      [("a", "X")] [("de_de", [("a", "Has LegitKillaura"); ("c", "W")])]
    = ([ "⚠ In de_de.json string a, the word 'KillauraLegit' is incorrectly translated as 'LegitKillaura':";
         "```json";
         "  " +:+ quoted "a" +:+ ": " +:+ quoted "Has LegitKillaura";
         "```" ],
       inl (Exception "Found known issues in one or more translation files")).
Proof. split; by vm_compute. Qed.

Section key_error.
Context (str_lower : string → string).

(** Which check of [main] raises, and what ran before it. *)
Lemma checks_split seed fs wurst_mode en_us translations
    (before : list (IO unit)) (c : IO unit) (after : list (IO unit)) :
  checks str_lower seed fs wurst_mode en_us translations
    = before ++ c :: after →
  Forall (λ m, outcome m = inr ()) before →
  c = show_translation_stats en_us translations
  ∨ c = check_extra_keys seed en_us translations
  ∨ (c = check_untranslated_strings seed
           (intentionally_untranslated_json fs) en_us translations
     ∧ outcome (check_extra_keys seed en_us translations) = inr ())
  ∨ c = check_order_of_strings en_us translations
  ∨ c = check_known_issues str_lower en_us translations.
Proof.
  unfold checks. intros Heq Hbefore.
  destruct before as [|b0 before]; cbn [app] in Heq;
    [injection Heq as <- _; tauto|].
  injection Heq as -> Heq. apply Forall_cons in Hbefore as [_ Hbefore].
  destruct before as [|b1 before]; cbn [app] in Heq;
    [injection Heq as <- _; tauto|].
  injection Heq as -> Heq. apply Forall_cons in Hbefore as [Hextra Hbefore].
  destruct before as [|b2 before]; cbn [app] in Heq;
    [injection Heq as <- _; tauto|].
  injection Heq as -> Heq.
  destruct before as [|b3 before]; cbn [app] in Heq;
    [injection Heq as <- _; tauto|].
  injection Heq as -> Heq.
  destruct wurst_mode; [|by destruct before].
  destruct before as [|b4 before]; cbn [app] in Heq;
    [injection Heq as <- _; tauto|].
  injection Heq as -> Heq. by destruct before.
Qed.

Lemma main_not_key_error seed fs wurst_mode (key : string) :
  outcome (main str_lower seed fs wurst_mode) ≠ inl (KeyError key).
Proof.
  rewrite main_eq, outcome_bind.
  destruct (outcome (load_tables fs)) as [e|[en_us translations]] eqn:Hload.
  { apply load_tables_outcome in Hload as [name [ -> | -> ]]; done. }
  cbn [fst snd].
  destruct (run_all_cases
              (checks str_lower seed fs wurst_mode en_us translations))
    as [Hall|(before & c & after & e & Heq & Hbefore & Hc)].
  { by rewrite run_all_returns. }
  rewrite Heq, (run_all_first_raise _ _ _ e) by done.
  unfold outcome at 1. cbn [snd]. intros [= ->].
  apply checks_split in Heq
    as [ -> | [ -> | [ [-> Hextra] | [ -> | -> ] ] ] ]; [| | | | |done].
  - by destruct (show_translation_stats_outcome en_us translations)
      as [H|H]; rewrite H in Hc.
  - rewrite check_extra_keys_eq in Hc. by destruct (decide _).
  - rewrite check_extra_keys_eq in Hextra.
    destruct (decide (keys_subset en_us translations)) as [Hsub|]; [|done].
    destruct (intentionally_untranslated_json fs) as [| |exemptions] eqn:Hf.
    + destruct (check_untranslated_strings_no_file seed Missing
                  en_us translations eq_refl) as (e & Heq & Hne).
      rewrite Heq in Hc. injection Hc as ->. by destruct (Hne key).
    + destruct (check_untranslated_strings_no_file seed Malformed
                  en_us translations eq_refl) as (e & Heq & Hne).
      rewrite Heq in Hc. injection Hc as ->. by destruct (Hne key).
    + rewrite check_untranslated_strings_eq in Hc by done.
      by destruct (existsb _ _).
  - by destruct (check_order_of_strings_outcome en_us translations)
      as [H|[lang H]]; rewrite H in Hc.
  - rewrite check_known_issues_eq in Hc. by destruct (decide _).
Qed.

(** C10.  [check_untranslated_strings] looks every key of every language
    up in the reference without a guard: called on tables in which some
    language has a key that the reference lacks, it ends in the [KeyError]
    of such a key, not in the exception of a failed check.  [main] never
    ends so: what it runs before this check returns only when every key of
    every language is a key of the reference. *)
Theorem untranslated_key_error seed :
  (∀ intentionally_untranslated en_us translations,
     ¬ keys_subset en_us translations →
     ∃ lang data key,
       (lang, data) ∈ translations ∧ key ∈ Dict.keys data
       ∧ (key ∉ Dict.keys en_us)
       ∧ outcome (check_untranslated_strings seed
                    (Content intentionally_untranslated) en_us translations)
         = inl (KeyError key))
  ∧ (∀ fs wurst_mode key,
       outcome (main str_lower seed fs wurst_mode) ≠ inl (KeyError key))
  ∧ (∀ en_us translations,
       outcome (show_translation_stats en_us translations;;
                check_extra_keys seed en_us translations) = inr () →
       keys_subset en_us translations).
Proof.
  split; [|split].
  - intros iu en_us translations.
    apply check_untranslated_strings_key_error.
  - intros fs wurst_mode key. apply main_not_key_error.
  - intros en_us translations. rewrite outcome_bind.
    destruct (outcome (show_translation_stats _ _)); [done|].
    rewrite check_extra_keys_eq. by destruct (decide _).
Qed.

End key_error.

(** ** Two runs on the same files *)

Lemma same_up_to_order_refl {A} (m : IO A) : same_up_to_order m m.
Proof. by repeat split. Qed.

Lemma same_up_to_order_bind {A B} (m1 m2 : IO A) (f1 f2 : A → IO B) :
  same_up_to_order m1 m2 →
  (∀ a, outcome m1 = inr a → same_up_to_order (f1 a) (f2 a)) →
  same_up_to_order (m1 ≫= f1) (m2 ≫= f2).
Proof.
  intros (Hout & Hrep & Heq) Hf. unfold same_up_to_order.
  rewrite !outcome_bind, !report_bind, <-Hout.
  destruct (outcome m1) as [e|a] eqn:Hm1.
  - split; [done|]. split; [by rewrite Hrep|done].
  - destruct (Hf a eq_refl) as (Hout' & Hrep' & Heq').
    split; [done|]. split; [by rewrite Hrep, Hrep'|].
    intros b Hb. rewrite <-(Heq a eq_refl). apply bind_ext.
    intros a' Ha'. rewrite Hm1 in Ha'. injection Ha' as <-. by eapply Heq'.
Qed.

Lemma bind_Permutation {A} (f g : A → list string) (l : list A) :
  (∀ x, x ∈ l → f x ≡ₚ g x) → l ≫= f ≡ₚ l ≫= g.
Proof.
  induction l as [|x l IH]; intros Hfg; [done|].
  rewrite !bind_cons. f_equiv; [apply Hfg; left|].
  apply IH. intros; apply Hfg; by right.
Qed.

Lemma set_iter_perm_seeds (seed1 seed2 : hash_seed) (X : gset string) :
  set_iter seed1 X ≡ₚ set_iter seed2 X.
Proof. by rewrite !set_iter_perm. Qed.

Lemma extra_keys_block_perm seed1 seed2 en_us entry :
  extra_keys_block seed1 en_us entry ≡ₚ extra_keys_block seed2 en_us entry.
Proof.
  unfold extra_keys_block. destruct (set_nonempty _); [|done].
  by rewrite (set_iter_perm_seeds seed1 seed2).
Qed.

Lemma untranslated_report_perm en_us lang (listed listed' : list string) :
  listed ≡ₚ listed' →
  untranslated_report en_us lang listed
  ≡ₚ untranslated_report en_us lang listed'.
Proof.
  intros Hperm. unfold untranslated_report. by rewrite Hperm.
Qed.

Lemma untranslated_block_perm seed1 seed2 intentionally_untranslated
    en_us entry :
  untranslated_block seed1 intentionally_untranslated en_us entry
  ≡ₚ untranslated_block seed2 intentionally_untranslated en_us entry.
Proof.
  unfold untranslated_block. destruct (set_nonempty _); [|done].
  apply untranslated_report_perm, set_iter_perm_seeds.
Qed.

Lemma check_extra_keys_same seed1 seed2 en_us translations :
  same_up_to_order (check_extra_keys seed1 en_us translations)
    (check_extra_keys seed2 en_us translations).
Proof.
  rewrite !check_extra_keys_eq.
  destruct (decide (keys_subset en_us translations));
    [apply same_up_to_order_refl|].
  split; [done|]. split; [|done].
  apply bind_Permutation. intros; apply extra_keys_block_perm.
Qed.

Lemma check_untranslated_strings_same seed1 seed2 exemptions
    en_us translations :
  keys_subset en_us translations →
  same_up_to_order
    (check_untranslated_strings seed1 exemptions en_us translations)
    (check_untranslated_strings seed2 exemptions en_us translations).
Proof.
  intros Hsub. destruct exemptions as [| |intentionally_untranslated];
    [apply same_up_to_order_refl..|].
  rewrite !check_untranslated_strings_eq by done.
  destruct (existsb _ _); [|apply same_up_to_order_refl].
  split; [done|]. split; [|done].
  apply bind_Permutation. intros; apply untranslated_block_perm.
Qed.

Lemma list_bind_eq {A} (f g : A → list string) (l : list A) :
  (∀ x, x ∈ l → f x = g x) → l ≫= f = l ≫= g.
Proof.
  induction l as [|x l IH]; intros Hfg; [done|].
  rewrite !bind_cons, Hfg, IH; [done| |left].
  intros; apply Hfg; by right.
Qed.

Lemma check_extra_keys_same_order seed1 seed2 en_us translations :
  (∀ X, set_iter seed1 X = set_iter seed2 X) →
  check_extra_keys seed1 en_us translations
  = check_extra_keys seed2 en_us translations.
Proof.
  intros Hiter. rewrite !check_extra_keys_eq.
  destruct (decide (keys_subset en_us translations)); [done|].
  f_equal. apply list_bind_eq. intros entry _.
  unfold extra_keys_block. by rewrite Hiter.
Qed.

Lemma check_untranslated_strings_same_order seed1 seed2 exemptions
    en_us translations :
  (∀ X, set_iter seed1 X = set_iter seed2 X) →
  keys_subset en_us translations →
  check_untranslated_strings seed1 exemptions en_us translations
  = check_untranslated_strings seed2 exemptions en_us translations.
Proof.
  intros Hiter Hsub.
  destruct exemptions as [| |intentionally_untranslated]; [done..|].
  rewrite !check_untranslated_strings_eq by done.
  destruct (existsb _ _); [|done].
  f_equal. apply list_bind_eq. intros entry _.
  unfold untranslated_block. by rewrite Hiter.
Qed.

Lemma same_up_to_key_order_refl en_us translations (lines : list string) :
  same_up_to_key_order en_us translations lines lines.
Proof.
  exists lines, (λ _, []), (λ _, []).
  rewrite bind_nil, app_nil_r by by apply Forall_true.
  split; [done|]. split; [done|]. by left.
Qed.

Lemma extra_keys_block_same_listing seed1 seed2 en_us lang (data : dict) :
  same_listing en_us lang
    (extra_keys_block seed1 en_us (lang, data))
    (extra_keys_block seed2 en_us (lang, data)).
Proof.
  unfold extra_keys_block. cbn [fst snd].
  destruct (set_nonempty _); [|by left]. right.
  exists (set_iter seed1 (extra_keys_of en_us data)),
    (set_iter seed2 (extra_keys_of en_us data)).
  split; [apply set_iter_perm_seeds|]. left.
  by rewrite !set_iter_length.
Qed.

Lemma untranslated_block_same_listing seed1 seed2 intentionally_untranslated
    en_us lang (data : dict) :
  same_listing en_us lang
    (untranslated_block seed1 intentionally_untranslated en_us (lang, data))
    (untranslated_block seed2 intentionally_untranslated en_us (lang, data)).
Proof.
  unfold untranslated_block. cbn [fst snd].
  destruct (set_nonempty _); [|by left]. right.
  exists (set_iter seed1
            (untranslated_of intentionally_untranslated en_us lang data)),
    (set_iter seed2
       (untranslated_of intentionally_untranslated en_us lang data)).
  split; [apply set_iter_perm_seeds|]. by right.
Qed.

Section determinism.
Context (str_lower : string → string).

(** [main] after its loading. *)
Lemma main_loaded_seq seed fs wurst_mode en_us translations :
  outcome (load_tables fs) = inr (en_us, translations) →
  main str_lower seed fs wurst_mode
  = (show_translation_stats en_us translations;;
     check_extra_keys seed en_us translations;;
     check_untranslated_strings seed (intentionally_untranslated_json fs)
       en_us translations;;
     check_order_of_strings en_us translations;;
     if wurst_mode then check_known_issues str_lower en_us translations
     else mret ()).
Proof.
  intros Hload. rewrite (main_loaded _ _ _ _ _ _ Hload).
  unfold checks. cbn [app run_all].
  repeat (apply bind_ext; intros [] _).
  destruct wurst_mode; cbn [run_all]; [|done].
  by rewrite bind_mret_unit.
Qed.

Lemma main_same_blocks seed1 seed2 fs wurst_mode en_us translations :
  outcome (load_tables fs) = inr (en_us, translations) →
  same_up_to_key_order en_us translations
    (report (main str_lower seed1 fs wurst_mode))
    (report (main str_lower seed2 fs wurst_mode)).
Proof.
  intros Hload. rewrite !(main_loaded_seq _ _ _ _ _ Hload).
  destruct (show_translation_stats en_us translations)
    as [stats [e|[]]]; [apply same_up_to_key_order_refl|].
  rewrite !bind_inr, !check_extra_keys_eq.
  destruct (decide (keys_subset en_us translations)) as [Hsub|Hsub].
  - rewrite !bind_inr.
    destruct (intentionally_untranslated_json fs)
      as [| |intentionally_untranslated];
      [apply same_up_to_key_order_refl..|].
    rewrite !check_untranslated_strings_eq by done.
    destruct (existsb _ translations);
      [|apply same_up_to_key_order_refl].
    exists (stats ++ ["✅ No extra keys found"]),
      (untranslated_block seed1 intentionally_untranslated en_us),
      (untranslated_block seed2 intentionally_untranslated en_us).
    unfold report. cbn [fst snd].
    split; [by rewrite <-app_assoc|]. split; [by rewrite <-app_assoc|].
    intros lang data _. apply untranslated_block_same_listing.
  - exists stats, (extra_keys_block seed1 en_us),
      (extra_keys_block seed2 en_us).
    split; [done|]. split; [done|].
    intros lang data _. apply extra_keys_block_same_listing.
Qed.

Lemma main_same seed1 seed2 fs wurst_mode :
  same_up_to_order (main str_lower seed1 fs wurst_mode)
    (main str_lower seed2 fs wurst_mode).
Proof.
  unfold main.
  apply same_up_to_order_bind; [apply same_up_to_order_refl|].
  intros [en_us translations] _.
  apply same_up_to_order_bind; [apply same_up_to_order_refl|].
  intros [] _.
  apply same_up_to_order_bind; [apply check_extra_keys_same|].
  intros [] Hextra.
  assert (keys_subset en_us translations) as Hsub.
  { rewrite check_extra_keys_eq in Hextra. by destruct (decide _). }
  apply same_up_to_order_bind;
    [by apply check_untranslated_strings_same|].
  intros [] _. apply same_up_to_order_refl.
Qed.

Lemma main_same_order seed1 seed2 fs wurst_mode :
  (∀ X, set_iter seed1 X = set_iter seed2 X) →
  main str_lower seed1 fs wurst_mode = main str_lower seed2 fs wurst_mode.
Proof.
  intros Hiter. unfold main.
  apply bind_ext. intros [en_us translations] _.
  apply bind_ext. intros [] _.
  rewrite (check_extra_keys_same_order seed1 seed2) by done.
  apply bind_ext. intros [] Hextra.
  assert (keys_subset en_us translations) as Hsub.
  { rewrite check_extra_keys_eq in Hextra. by destruct (decide _). }
  by rewrite (check_untranslated_strings_same_order seed1 seed2).
Qed.

(** The corrected C7.  Two runs of [main] on the same files end alike (both
    return, or both raise the same exception), and their reports differ at
    most in the order in which a check lists the keys of one language, which
    is that of a set and which the files do not fix.  On the loaded tables
    the two reports start with the same lines and go on, language by
    language, with two blocks that are the same or that have the header of
    that language and the lines of the same keys in two orders; so the
    reports hold the same lines, each as often.  When the tables cannot be
    loaded, when the run returns, and when the two runs iterate over every
    set in the same order, the reports are the same sequence. *)
Theorem main_deterministic_up_to_set_order seed1 seed2 fs wurst_mode :
  outcome (main str_lower seed1 fs wurst_mode)
  = outcome (main str_lower seed2 fs wurst_mode)
  ∧ (∀ en_us translations,
       outcome (load_tables fs) = inr (en_us, translations) →
       same_up_to_key_order en_us translations
         (report (main str_lower seed1 fs wurst_mode))
         (report (main str_lower seed2 fs wurst_mode)))
  ∧ report (main str_lower seed1 fs wurst_mode)
    ≡ₚ report (main str_lower seed2 fs wurst_mode)
  ∧ (∀ e, outcome (load_tables fs) = inl e →
          main str_lower seed1 fs wurst_mode
          = main str_lower seed2 fs wurst_mode)
  ∧ (outcome (main str_lower seed1 fs wurst_mode) = inr () →
     main str_lower seed1 fs wurst_mode
     = main str_lower seed2 fs wurst_mode)
  ∧ ((∀ X, set_iter seed1 X = set_iter seed2 X) →
     main str_lower seed1 fs wurst_mode
     = main str_lower seed2 fs wurst_mode).
Proof.
  destruct (main_same seed1 seed2 fs wurst_mode) as (Hout & Hrep & Heq).
  split; [done|]. split; [apply main_same_blocks|]. split; [done|].
  split; [|split; [apply Heq|apply main_same_order]].
  intros e Hload. unfold main.
  destruct (load_tables fs) as [lines [e'|tables]]; [done|discriminate].
Qed.

End determinism.

(** Two runs on the same files whose reports differ: the two extra keys of
    the one language are listed in the order of each run's set. *)
Lemma main_depends_on_set_order :
  main Str.lower seed_fwd
    (FileSystem
       (Content [("a", "X")])
       [Path "de_de.json" true (Content [("a", "Y"); ("c", "W"); ("d", "V")])]
       (Content []))
    false
  = ([ "| Language | Translated | % |";
       "| --- | --- | --- |";
       "| en_us | 1 | 100.00% |";
       "| de_de | 3 | 300.00% |";
       EmptyString;
       "⚠ de_de.json contains translations that don't exist in en_us.json (2 found):";
       "- c";
       "- d" ],
     inl (Exception "Found extra keys in one or more translation files"))
  ∧ main Str.lower seed_rev
      (FileSystem
         (Content [("a", "X")])
         [Path "de_de.json" true
            (Content [("a", "Y"); ("c", "W"); ("d", "V")])]
         (Content []))
      false
    = ([ "| Language | Translated | % |";
         "| --- | --- | --- |";
         "| en_us | 1 | 100.00% |";
         "| de_de | 3 | 300.00% |";
         EmptyString;
         "⚠ de_de.json contains translations that don't exist in en_us.json (2 found):";
         "- d";
         "- c" ],
       inl (Exception "Found extra keys in one or more translation files")).
Proof. split; by vm_compute. Qed.

(** ** The theorems on examples *)

(** A language with the extra key [c]. *)
Lemma check_extra_keys_spec_witness :
  outcome (check_extra_keys seed_rev
             [("a", "X"); ("b", "Y")] [("de", [("a", "X"); ("c", "W")])])
  = inl (Exception "Found extra keys in one or more translation files").
Proof.
  destruct (check_extra_keys_spec seed_rev
              [("a", "X"); ("b", "Y")] [("de", [("a", "X"); ("c", "W")])])
    as (_ & _ & Hfails).
  apply Hfails. apply (bool_decide_unpack _). vm_compute. exact I.
Defined.

(** A language whose string for [a] is the reference's, with [a] in the
    table of exemptions for it. *)
Lemma check_untranslated_strings_spec_witness :
  check_untranslated_strings seed_rev (Content [("fr", ["a"])])
    [("a", "X"); ("b", "Y")] [("fr", [("a", "X"); ("b", "V")])]
  = (["✅ No accidentally untranslated strings found"], inr ()).
Proof.
  destruct (check_untranslated_strings_spec seed_rev [("fr", ["a"])]
              [("a", "X"); ("b", "Y")] [("fr", [("a", "X"); ("b", "V")])])
    as (Hpasses & _).
  - apply (bool_decide_unpack _). vm_compute. exact I.
  - intros lang data [[= -> ->]|[]%elem_of_nil]%elem_of_cons.
    apply (bool_decide_unpack _). vm_compute. exact I.
  - apply Hpasses.
    intros lang data key value en_value
      [[= -> ->]|[]%elem_of_nil]%elem_of_cons Hdata Hen.
    destruct (decide (key = "a")) as [->|Hne].
    + right. exists ["a"]. split; [reflexivity|left].
    + left. cbn [Dict.get] in Hdata, Hen.
      rewrite decide_False in Hdata, Hen by done.
      destruct (decide ("b" = key)); congruence.
Defined.

(** A language that has [b] before [a]. *)
Lemma check_order_of_strings_spec_witness :
  check_order_of_strings
    [("a", "X"); ("b", "Y"); ("c", "Z")]
    [("es", [("a", "1"); ("c", "2")]); ("it", [("b", "1"); ("a", "2")])]
  = ([], inl (order_error "it")).
Proof.
  destruct (check_order_of_strings_spec
              [("a", "X"); ("b", "Y"); ("c", "Z")]
              [("es", [("a", "1"); ("c", "2")]);
               ("it", [("b", "1"); ("a", "2")])])
    as (_ & _ & Hfirst & _).
  apply (Hfirst [("es", [("a", "1"); ("c", "2")])] "it"
           [("b", "1"); ("a", "2")] []).
  - reflexivity.
  - intros lang data [[= -> ->]|[]%elem_of_nil]%elem_of_cons.
    apply (bool_decide_unpack _). vm_compute. exact I.
  - apply (bool_decide_unpack _). vm_compute. exact I.
Defined.

(** Two languages against a reference of three entries. *)
Lemma show_translation_stats_spec_witness :
  show_translation_stats
    [("a", "X"); ("b", "Y"); ("c", "Z")]
    [("de", [("a", "1")]); ("fr", [("a", "1"); ("b", "2")])]
  = ([ "| Language | Translated | % |";
       "| --- | --- | --- |";
       "| en_us | 3 | 100.00% |";
       "| de | 1 | 33.33% |";
       "| fr | 2 | 66.67% |";
       EmptyString ],
     inr ()).
Proof.
  destruct (show_translation_stats_spec
              [("a", "X"); ("b", "Y"); ("c", "Z")]
              [("de", [("a", "1")]); ("fr", [("a", "1"); ("b", "2")])])
    as (Hnonempty & _).
  rewrite Hnonempty by done. vm_compute. reflexivity.
Defined.

(** A translation file with a reserved key. *)
Lemma load_tables_spec_witness :
  "language.name"
  ∉ Dict.keys [("a", "Y")].
Proof.
  destruct (load_tables_spec
              (FileSystem
                 (Content [("language.name", "English"); ("a", "X")])
                 [Path "de_de.json" true
                    (Content [("language.name", "Deutsch"); ("a", "Y")])]
                 (Content [])))
    as (_ & _ & Hloaded).
  destruct (Hloaded [("language.name", "English"); ("a", "X")]
              [("de_de", [("a", "Y")])]) as (_ & Htables).
  - vm_compute. reflexivity.
  - destruct (Htables "de_de" [("a", "Y")]) as (_ & Hkeys); [left|].
    apply Hkeys. left.
Defined.

(** A run that stops at [check_extra_keys]. *)
Lemma main_stops_at_first_failure_witness :
  main Str.lower seed_fwd
    (FileSystem
       (Content [("a", "X")])
       [Path "de_de.json" true
          (Content [("a", "Has LegitKillaura"); ("c", "W")])]
       (Content []))
    true
  = ([ "| Language | Translated | % |";
       "| --- | --- | --- |";
       "| en_us | 1 | 100.00% |";
       "| de_de | 2 | 200.00% |";
       EmptyString;
       "⚠ de_de.json contains translations that don't exist in en_us.json (1 found):";
       "- c" ],
     inl (Exception "Found extra keys in one or more translation files")).
Proof.
  rewrite (main_stops_at_first_failure Str.lower seed_fwd
             (FileSystem
                (Content [("a", "X")])
                [Path "de_de.json" true
                   (Content [("a", "Has LegitKillaura"); ("c", "W")])]
                (Content []))
             true
             [("a", "X")]
             [("de_de", [("a", "Has LegitKillaura"); ("c", "W")])]
             [show_translation_stats [("a", "X")]
                [("de_de", [("a", "Has LegitKillaura"); ("c", "W")])]]
             (check_extra_keys seed_fwd [("a", "X")]
                [("de_de", [("a", "Has LegitKillaura"); ("c", "W")])])
             [check_untranslated_strings seed_fwd (Content []) [("a", "X")]
                [("de_de", [("a", "Has LegitKillaura"); ("c", "W")])];
              check_order_of_strings [("a", "X")]
                [("de_de", [("a", "Has LegitKillaura"); ("c", "W")])];
              check_known_issues Str.lower [("a", "X")]
                [("de_de", [("a", "Has LegitKillaura"); ("c", "W")])]]
             (Exception "Found extra keys in one or more translation files")).
  - vm_compute. reflexivity.
  - vm_compute. reflexivity.
  - reflexivity.
  - constructor; [|constructor]. vm_compute. reflexivity.
  - vm_compute. reflexivity.
Defined.

(** The two runs whose reports differ: they differ in the order of the two
    extra keys of [de_de], within its block. *)
Lemma main_deterministic_up_to_set_order_witness :
  same_up_to_key_order [("a", "X")]
    [("de_de", [("a", "Y"); ("c", "W"); ("d", "V")])]
    (report
       (main Str.lower seed_fwd
          (FileSystem
             (Content [("a", "X")])
             [Path "de_de.json" true
                (Content [("a", "Y"); ("c", "W"); ("d", "V")])]
             (Content []))
          false))
    (report
       (main Str.lower seed_rev
          (FileSystem
             (Content [("a", "X")])
             [Path "de_de.json" true
                (Content [("a", "Y"); ("c", "W"); ("d", "V")])]
             (Content []))
          false)).
Proof.
  destruct (main_deterministic_up_to_set_order Str.lower seed_fwd seed_rev
              (FileSystem
                 (Content [("a", "X")])
                 [Path "de_de.json" true
                    (Content [("a", "Y"); ("c", "W"); ("d", "V")])]
                 (Content []))
              false) as (_ & Hblocks & _).
  apply Hblocks. vm_compute. reflexivity.
Defined.

(** The typo [Nofall] in a string of [de]. *)
Lemma known_typos_rule_witness :
  outcome (check_known_issues Str.lower []
             [("de", [("k", "Nofall an")])])
  = inl (Exception "Found known issues in one or more translation files").
Proof.
  destruct (known_typos_rule Str.lower []) as (_ & Hflags & _).
  apply (Hflags [("de", [("k", "Nofall an")])] "de" [("k", "Nofall an")]
           "k" "Nofall an" "Nofall" "NoFall").
  - left.
  - left.
  - apply (bool_decide_unpack _). vm_compute. exact I.
  - by exists EmptyString, " an".
Defined.

(** The red code left in the radar string of [de]. *)
Lemma radar_rule_witness :
  outcome (check_known_issues Str.lower []
             [("de", [(radar_key, "§cred§r - Spieler")])])
  = inl (Exception "Found known issues in one or more translation files").
Proof.
  destruct (radar_rule Str.lower [] [("de", [(radar_key, "§cred§r - Spieler")])]
              "de") as (Hiff & Hraises & _).
  apply Hraises, Hiff.
  exists [(radar_key, "§cred§r - Spieler")], "§cred§r - Spieler".
  split; [left|]. split; [reflexivity|].
  left. by exists EmptyString, " - Spieler".
Defined.

(** The key [c] that the reference lacks. *)
Lemma untranslated_key_error_witness :
  ∃ lang data key,
    (lang, data) ∈ [("de", [("a", "X"); ("c", "W")])]
    ∧ key ∈ Dict.keys data
    ∧ (key ∉ Dict.keys [("a", "X")])
    ∧ outcome (check_untranslated_strings seed_fwd (Content [])
                 [("a", "X")] [("de", [("a", "X"); ("c", "W")])])
      = inl (KeyError key).
Proof.
  destruct (untranslated_key_error Str.lower seed_fwd) as (Hdirect & _).
  apply Hdirect. apply (bool_decide_unpack _). vm_compute. exact I.
Defined.

(** * Further properties *)

(** ** [check_known_issues] as a whole *)

Section known_issues_whole.
Context (str_lower : string → string).

Lemma typos_report_nil (entry : string * dict) :
  typos_report entry = []
  ↔ ∀ key value typo correct,
      (key, value) ∈ entry.2 → (typo, correct) ∈ known_typos →
      ¬ occurs typo value.
Proof.
  unfold typos_report. split.
  - intros Hnil key value typo correct Hitem Hpair Hocc%contains_occurs.
    assert (emitted_together (typo_report entry.1 key value (typo, correct))
              []) as (before & after & Heq).
    { rewrite <-Hnil.
      eapply emitted_together_trans;
        [|apply (emitted_together_bind _ _ _ Hitem)].
      apply (emitted_together_bind _ _ _ Hpair). }
    unfold typo_report in Heq. cbn [fst snd] in Heq. rewrite Hocc in Heq.
    by destruct before.
  - intros Hnone. apply bind_nil, Forall_forall. intros [key value] Hitem.
    apply bind_nil, Forall_forall. intros [typo correct] Hpair.
    unfold typo_report. cbn [fst snd].
    destruct (Str.contains typo value) eqn:Hc; [|done].
    apply contains_occurs in Hc. by destruct (Hnone key value typo correct).
Qed.

Lemma has_value_with_false (data : dict) (key : string) (test : string → bool) :
  has_value_with data key test = false
  ↔ ∀ value, Dict.get data key = Some value → test value = false.
Proof.
  unfold has_value_with. destruct (Dict.get data key) as [value|].
  - split; [by intros ? ? [= <-]|eauto].
  - split; [done|done].
Qed.

Lemma boatfly_report_nil (entry : string * dict) :
  boatfly_report str_lower entry = []
  ↔ ∀ value, Dict.get entry.2 boatfly_key = Some value →
             ¬ occurs "shift" (str_lower value).
Proof.
  unfold boatfly_report.
  destruct (has_value_with _ _ _) eqn:Hh.
  - split; [done|]. intros Hnone.
    apply has_value_with_get in Hh as (value & Hget & Hc%contains_occurs).
    by destruct (Hnone value).
  - split; [|done]. intros _ value Hget.
    rewrite has_value_with_false in Hh. rewrite <-contains_occurs.
    by rewrite (Hh value Hget).
Qed.

Lemma radar_report_nil (entry : string * dict) :
  radar_report entry = []
  ↔ ∀ value, Dict.get entry.2 radar_key = Some value →
             ¬ occurs "§cred§r" value ∧ ¬ occurs "§agreen§r" value
             ∧ ¬ occurs "§7gray§r" value.
Proof.
  unfold radar_report.
  destruct (has_value_with _ _ _) eqn:Hh.
  - split; [done|]. intros Hnone.
    apply has_value_with_get in Hh
      as (value & Hget & Hc%(radar_colors_occurs str_lower)).
    destruct (Hnone value Hget) as (? & ? & ?). tauto.
  - split; [|done]. intros _ value Hget.
    rewrite has_value_with_false in Hh. specialize (Hh value Hget).
    rewrite <-not_true_iff_false, (radar_colors_occurs str_lower) in Hh.
    tauto.
Qed.

Lemma bind_nil_iff {A B} (f : A → list B) (l : list A) :
  l ≫= f = [] ↔ ∀ x, x ∈ l → f x = [].
Proof.
  split.
  - intros Hnil x (before & after & Heq)%(bind_elem_of_split f).
    rewrite Hnil in Heq. symmetry in Heq.
    apply app_eq_nil in Heq as [_ Heq]. by apply app_eq_nil in Heq as [? _].
  - intros Hall. by apply bind_nil, Forall_forall.
Qed.

Lemma known_issues_report_nil translations :
  known_issues_report str_lower translations = []
  ↔ no_known_issue str_lower translations.
Proof.
  unfold known_issues_report, no_known_issue.
  rewrite app_nil, !bind_nil_iff. split.
  - intros [Htypos Hhard] lang data Hin.
    specialize (Htypos _ Hin). specialize (Hhard _ Hin).
    apply app_eq_nil in Hhard as [Hboat Hradar].
    rewrite typos_report_nil in Htypos. rewrite boatfly_report_nil in Hboat.
    rewrite radar_report_nil in Hradar. eauto.
  - intros Hnone. split; intros [lang data] Hin;
      destruct (Hnone lang data Hin) as (Htypos & Hboat & Hradar).
    + by apply typos_report_nil.
    + apply app_nil. split;
        [by apply boatfly_report_nil|by apply radar_report_nil].
Qed.

(** X1.  [check_known_issues] emits its one confirmation line and returns
    exactly when none of its rules finds anything.  Otherwise it raises,
    having reported the typos of every language and then, for every
    language, its boatfly and radar warnings.  The reference table plays no
    part. *)
Theorem check_known_issues_spec en_us translations :
  (check_known_issues str_lower en_us translations
   = (["✅ No known issues found in any translation files"], inr ())
   ↔ no_known_issue str_lower translations)
  ∧ (outcome (check_known_issues str_lower en_us translations) = inr ()
     ↔ no_known_issue str_lower translations)
  ∧ (¬ no_known_issue str_lower translations →
     check_known_issues str_lower en_us translations
     = ((translations ≫= typos_report)
        ++ (translations
              ≫= λ entry, boatfly_report str_lower entry
                          ++ radar_report entry),
        inl (Exception
               "Found known issues in one or more translation files")))
  ∧ (∀ en_us',
       check_known_issues str_lower en_us' translations
       = check_known_issues str_lower en_us translations).
Proof.
  rewrite <-known_issues_report_nil.
  split; [|split; [|split]].
  - rewrite check_known_issues_eq. destruct (decide _); [done|].
    split; [by intros [=]|done].
  - rewrite check_known_issues_eq. destruct (decide _); [done|].
    split; [by intros [=]|done].
  - intros Hsome. rewrite check_known_issues_eq. by destruct (decide _).
  - intros en_us'. by rewrite !check_known_issues_eq.
Qed.

Lemma boatfly_line_end (lang : string) : ∃ a, boatfly_line lang = a +:+ "nd".
Proof.
  unfold boatfly_line.
  change " incorrectly suggests using the shift (sneak) key instead of ctrl (sprint) to descend"
    with (" incorrectly suggests using the shift (sneak) key instead of ctrl (sprint) to desce" +:+ "nd").
  rewrite <-!string_app_assoc. by eexists.
Qed.

Lemma boatfly_line_start (lang : string) :
  ∃ rest, boatfly_line lang = String "226"%char (String "154"%char rest).
Proof. unfold boatfly_line. rewrite !string_app_cons. by eexists. Qed.

Lemma boatfly_line_inj (lang lang' : string) :
  boatfly_line lang = boatfly_line lang' → lang = lang'.
Proof.
  unfold boatfly_line. intros Heq%(inj (String.append _)).
  by apply string_app_inj_2 in Heq as [? _].
Qed.

Lemma boatfly_line_not_typo (lang lang' key value : string) pair :
  boatfly_line lang ∉ typo_report lang' key value pair.
Proof.
  unfold typo_report. destruct (Str.contains _ _); [|apply not_elem_of_nil].
  destruct (boatfly_line_start lang) as [rest Hstart].
  rewrite !not_elem_of_cons. split; [|split; [|split; [|split]]].
  - destruct (boatfly_line_end lang) as [a ->].
    rewrite <-!string_app_assoc. by apply string_ends_differ.
  - by rewrite Hstart.
  - rewrite Hstart. by rewrite string_app_cons.
  - by rewrite Hstart.
  - apply not_elem_of_nil.
Qed.

Lemma boatfly_line_not_radar (lang : string) entry :
  boatfly_line lang ∉ radar_report entry.
Proof.
  unfold radar_report.
  destruct (has_value_with _ _ _); [|apply not_elem_of_nil].
  destruct (boatfly_line_start lang) as [rest Hstart].
  rewrite !not_elem_of_cons. split; [|split; [|split; [|split]]].
  - destruct (boatfly_line_end lang) as [a ->].
    destruct (radar_header_end entry.1) as [b ->].
    by apply string_ends_differ.
  - by rewrite Hstart.
  - rewrite Hstart. by rewrite string_app_cons.
  - by rewrite Hstart.
  - apply not_elem_of_nil.
Qed.

Lemma boatfly_line_in_boatfly_report (lang : string) entry :
  boatfly_line lang ∈ boatfly_report str_lower entry
  ↔ entry.1 = lang
    ∧ has_value_with entry.2 boatfly_key
        (λ value, Str.contains "shift" (str_lower value)) = true.
Proof.
  unfold boatfly_report. destruct (has_value_with _ _ _).
  - rewrite list_elem_of_singleton. split.
    + by intros Heq%boatfly_line_inj.
    + by intros [-> _].
  - rewrite elem_of_nil. naive_solver.
Qed.

(** X2.  [check_known_issues] emits the boatfly warning of a language
    exactly when a table of that language has the boatfly key with a value
    in which [shift] occurs once the value is in lower case; it then ends
    by raising. *)
Theorem boatfly_rule en_us translations (lang : string) :
  (boatfly_line lang
     ∈ report (check_known_issues str_lower en_us translations)
   ↔ ∃ data value,
       (lang, data) ∈ translations
       ∧ Dict.get data boatfly_key = Some value
       ∧ occurs "shift" (str_lower value))
  ∧ (boatfly_line lang
       ∈ report (check_known_issues str_lower en_us translations) →
     outcome (check_known_issues str_lower en_us translations)
     = inl (Exception
              "Found known issues in one or more translation files")).
Proof.
  rewrite check_known_issues_eq.
  assert (boatfly_line lang ∈ known_issues_report str_lower translations
          ↔ ∃ data value,
              (lang, data) ∈ translations
              ∧ Dict.get data boatfly_key = Some value
              ∧ occurs "shift" (str_lower value)) as Hin.
  { unfold known_issues_report. rewrite elem_of_app, !list_elem_of_bind.
    split.
    - intros [(entry & Hline & _)|([lang' data] & Hline & Hentry)].
      + unfold typos_report in Hline.
        apply list_elem_of_bind in Hline as (item & Hline & _).
        apply list_elem_of_bind in Hline as (pair & Hline & _).
        by apply boatfly_line_not_typo in Hline.
      + apply elem_of_app in Hline as [Hline|Hline].
        * apply boatfly_line_in_boatfly_report in Hline as [Hlang Hflag].
          cbn [fst snd] in *. subst lang'.
          apply has_value_with_get in Hflag
            as (value & Hget & Hc%contains_occurs). eauto.
        * by apply boatfly_line_not_radar in Hline.
    - intros (data & value & Hentry & Hget & Hocc). right.
      exists (lang, data). split; [|done]. apply elem_of_app. left.
      apply boatfly_line_in_boatfly_report. split; [done|].
      apply has_value_with_get. exists value. by rewrite contains_occurs. }
  destruct (decide (known_issues_report str_lower translations = []))
    as [Hnil|Hsome]; [|done].
  rewrite <-Hin, Hnil. unfold report. cbn [fst].
  rewrite list_elem_of_singleton, elem_of_nil.
  destruct (boatfly_line_start lang) as [rest ->]. done.
Qed.

End known_issues_whole.

(** ** The name of a language *)

Lemma string_length_app (a b : string) :
  String.length (a +:+ b) = (String.length a + String.length b)%nat.
Proof.
  induction a as [|c a IH]; [done|].
  rewrite string_app_cons. cbn [String.length]. by rewrite IH.
Qed.

Lemma substring_0_app (a b : string) :
  String.substring 0 (String.length a) (a +:+ b) = a.
Proof.
  induction a as [|c a IH].
  - cbn [String.length]. rewrite string_app_nil_l. by destruct b.
  - rewrite string_app_cons. cbn [String.length String.substring].
    by rewrite IH.
Qed.

Lemma substring_0_all (b : string) :
  String.substring 0 (String.length b) b = b.
Proof.
  induction b as [|c b IH]; [done|].
  cbn [String.length String.substring]. by rewrite IH.
Qed.

Lemma substring_length_app (a b : string) :
  String.substring (String.length a) (String.length b) (a +:+ b) = b.
Proof.
  induction a as [|c a IH].
  - cbn [String.length]. rewrite string_app_nil_l. apply substring_0_all.
  - rewrite string_app_cons. cbn [String.length String.substring]. apply IH.
Qed.

(** A string is its first [n] characters followed by the others. *)
Lemma substring_split (s : string) (n : nat) :
  (n ≤ String.length s)%nat →
  s = String.substring 0 n s
      +:+ String.substring n (String.length s - n) s.
Proof.
  revert n. induction s as [|c s IH]; intros n Hn.
  - cbn [String.length] in Hn. by replace n with 0%nat by lia.
  - destruct n as [|n].
    + rewrite Nat.sub_0_r, substring_0_all. reflexivity.
    + cbn [String.length] in *. cbn [String.substring Nat.sub].
      rewrite string_app_cons. f_equal. apply IH. lia.
Qed.

(** X3.  [removesuffix] takes the suffix off a string that ends in it and
    leaves any other string as it is: a file [fr_fr.json] is the language
    [fr_fr], and the name that a message gives as [{lang}.json] is the
    file's. *)
Theorem removesuffix_spec (suffix s : string) :
  (∀ stem, s = stem +:+ suffix → Str.removesuffix suffix s = stem)
  ∧ ((∀ stem, s ≠ stem +:+ suffix) → Str.removesuffix suffix s = s)
  ∧ (Str.removesuffix suffix s +:+ suffix = s
     ∨ Str.removesuffix suffix s = s).
Proof.
  assert (∀ stem, s = stem +:+ suffix → Str.removesuffix suffix s = stem)
    as Hstem.
  { intros stem ->. unfold Str.removesuffix.
    rewrite string_length_app.
    replace (String.length stem + String.length suffix
             - String.length suffix)%nat
      with (String.length stem) by lia.
    rewrite substring_length_app, substring_0_app.
    rewrite decide_True; [done|]. split; [lia|done]. }
  assert ((∀ stem, s ≠ stem +:+ suffix) → Str.removesuffix suffix s = s)
    as Hother.
  { intros Hnot. unfold Str.removesuffix.
    destruct (decide _) as [[Hlen Hsub]|]; [|done].
    destruct (Hnot (String.substring 0
                      (String.length s - String.length suffix) s)).
    pose proof (substring_split s (String.length s - String.length suffix)
                  ltac:(lia)) as Hs.
    replace (String.length s - (String.length s - String.length suffix))%nat
      with (String.length suffix) in Hs by lia.
    by rewrite Hsub in Hs. }
  split; [exact Hstem|]. split; [exact Hother|].
  unfold Str.removesuffix at 1 2.
  destruct (decide _) as [[Hlen Hsub]|]; [|by right]. left.
  pose proof (substring_split s (String.length s - String.length suffix)
                ltac:(lia)) as Hs.
  replace (String.length s - (String.length s - String.length suffix))%nat
    with (String.length suffix) in Hs by lia.
  by rewrite Hsub in Hs.
Qed.

(** ** The order of the files *)

Lemma leb_refl (s : string) : String.leb s s = true.
Proof. by destruct (String.leb_total s s). Qed.

Lemma leb_false_le (s t : string) :
  String.leb s t = false → String.leb t s = true.
Proof. intros Hst. destruct (String.leb_total s t); congruence. Qed.

Lemma leb_trans (s t u : string) :
  String.leb s t = true → String.leb t u = true → String.leb s u = true.
Proof.
  intros Hst%Is_true_true Htu%Is_true_true. apply Is_true_true.
  by apply (transitivity (R:=String.le) (y:=t)).
Qed.

Lemma insert_by_name_sorted (p : path) (l : list path) :
  StronglySorted (λ q r, String.leb (name q) (name r) = true) l →
  StronglySorted (λ q r, String.leb (name q) (name r) = true)
    (insert_by_name p l).
Proof.
  induction 1 as [|q l Hl IH Hq]; cbn [insert_by_name].
  - by repeat constructor.
  - destruct (String.leb (name p) (name q)) eqn:Hpq.
    + constructor; [by constructor|]. constructor; [done|].
      eapply Forall_impl; [exact Hq|]. intros r Hqr. by eapply leb_trans.
    + constructor; [done|]. rewrite insert_by_name_perm.
      constructor; [by apply leb_false_le|done].
Qed.

Lemma insert_by_name_filter (p : path) (l : list path) (n : string) :
  filter (λ q, name q = n) (insert_by_name p l)
  = filter (λ q, name q = n) (p :: l).
Proof.
  induction l as [|q l IH]; cbn [insert_by_name]; [done|].
  destruct (String.leb (name p) (name q)) eqn:Hpq; [done|].
  rewrite filter_cons, IH, !filter_cons.
  destruct (decide (name q = n)) as [Hq|Hq];
    destruct (decide (name p = n)) as [Hp|Hp]; try done.
  rewrite Hp, <-Hq, leb_refl in Hpq. done.
Qed.

(** X4.  [main] goes through the files in the order of their names: the
    sorted list holds the same paths, each name is at most the names after
    it, and paths of one name keep the order in which [rglob] gave them. *)
Theorem sorted_by_name_spec (l : list path) :
  sorted_by_name l ≡ₚ l
  ∧ StronglySorted (λ p q, String.leb (name p) (name q) = true)
      (sorted_by_name l)
  ∧ ∀ n, filter (λ p, name p = n) (sorted_by_name l)
         = filter (λ p, name p = n) l.
Proof.
  split; [apply sorted_by_name_perm|]. split.
  - unfold sorted_by_name. induction l as [|p l IH]; cbn [foldr].
    + constructor.
    + by apply insert_by_name_sorted.
  - intros n. unfold sorted_by_name.
    induction l as [|p l IH]; cbn [foldr]; [done|].
    by rewrite insert_by_name_filter, !filter_cons, IH.
Qed.

(** ** Assigning to and popping from a dictionary *)

Lemma Dict_get_set {V} (d : Dict.t V) (k k' : string) (v : V) :
  Dict.get (Dict.set d k v) k'
  = if decide (k = k') then Some v else Dict.get d k'.
Proof.
  induction d as [|[k0 v0] d IH]; cbn [Dict.set Dict.get].
  - by destruct (decide (k = k')).
  - destruct (decide (k0 = k)) as [->|Hne]; cbn [Dict.get].
    + by destruct (decide (k = k')).
    + rewrite IH. destruct (decide (k0 = k')) as [->|]; [|done].
      by rewrite decide_False by done.
Qed.

Lemma Dict_set_keys {V} (d : Dict.t V) (k : string) (v : V) :
  Dict.keys (Dict.set d k v)
  = if decide (k ∈ Dict.keys d) then Dict.keys d else Dict.keys d ++ [k].
Proof.
  unfold Dict.keys. induction d as [|[k0 v0] d IH]; cbn [Dict.set].
  - rewrite decide_False by apply not_elem_of_nil. done.
  - destruct (decide (k0 = k)) as [->|Hne].
    + cbn [fmap list_fmap fst]. rewrite decide_True by left. done.
    + cbn [fmap list_fmap fst app]. fold (fmap (M:=list) (@fst string V)).
      rewrite IH. destruct (decide (k ∈ d.*1)) as [Hin|Hnin].
      * rewrite decide_True by (by right). done.
      * rewrite decide_False; [done|].
        intros [?|?]%elem_of_cons; [congruence|done].
Qed.

Lemma Dict_set_wf {V} (d : Dict.t V) (k : string) (v : V) :
  Dict.wf d → Dict.wf (Dict.set d k v).
Proof.
  unfold Dict.wf. rewrite Dict_set_keys. destruct (decide _); [done|].
  intros Hd. apply NoDup_app. split; [done|].
  split; [|apply NoDup_singleton].
  intros x Hx ->%list_elem_of_singleton. done.
Qed.

Lemma Dict_pop_filter {V} (d : Dict.t V) (k : string) :
  Dict.pop d k = filter (λ item, item.1 ≠ k) (d : list (string * V)).
Proof. reflexivity. Qed.

Lemma Dict_pop_get {V} (d : Dict.t V) (k k' : string) :
  Dict.get (Dict.pop d k) k'
  = if decide (k' = k) then None else Dict.get d k'.
Proof.
  unfold Dict.pop. induction d as [|[k0 v0] d IH].
  - by destruct (decide (k' = k)).
  - rewrite filter_cons. cbn [fst].
    destruct (decide (k0 ≠ k)) as [Hk0|Hk0]; cbn [Dict.get]; rewrite IH.
    + destruct (decide (k0 = k')) as [->|Hne]; [|done].
      by rewrite decide_False.
    + apply dec_stable in Hk0 as ->.
      destruct (decide (k = k')) as [->|Hne].
      * by rewrite !decide_True.
      * done.
Qed.

Lemma Dict_filter_wf {V} (P : string * V → Prop) `{!∀ x, Decision (P x)}
    (d : Dict.t V) :
  Dict.wf d → Dict.wf (filter P (d : list (string * V))).
Proof.
  unfold Dict.wf, Dict.keys. intros Hd.
  eapply sublist_NoDup; [exact Hd|]. apply fmap_sublist, sublist_filter.
Qed.

Lemma strip_reserved_filter (data : dict) :
  strip_reserved data
  = filter (λ item, item.1 ∉ reserved_keys) (data : list (string * string)).
Proof.
  unfold strip_reserved, Dict.pop. rewrite !list_filter_filter.
  apply list_filter_iff. intros [key value]. cbn [fst].
  unfold reserved_keys. rewrite !not_elem_of_cons, elem_of_nil. tauto.
Qed.

(** X5.  Popping the three reserved keys off a table keeps every other
    item, at its place and with its value; a table that has none of the
    three is left as it is, and a table with distinct keys stays so. *)
Theorem strip_reserved_spec (data : dict) :
  strip_reserved data
    = filter (λ item, item.1 ∉ reserved_keys) (data : list (string * string))
  ∧ (∀ key, Dict.get (strip_reserved data) key
            = if decide (key ∈ reserved_keys) then None
              else Dict.get data key)
  ∧ ((∀ key, key ∈ reserved_keys → key ∉ Dict.keys data) →
     strip_reserved data = data)
  ∧ strip_reserved (strip_reserved data) = strip_reserved data
  ∧ (Dict.wf data → Dict.wf (strip_reserved data)).
Proof.
  split; [apply strip_reserved_filter|]. split; [|split; [|split]].
  - intros key. unfold strip_reserved, reserved_keys.
    rewrite !Dict_pop_get.
    repeat (destruct (decide (key = _)) as [->|?];
            [by rewrite decide_True by set_solver|]).
    rewrite decide_False; [done|].
    rewrite !not_elem_of_cons, elem_of_nil. tauto.
  - intros Hnone. rewrite strip_reserved_filter.
    induction data as [|[key value] data IH]; [done|].
    rewrite filter_cons, decide_True.
    + rewrite IH; [done|]. intros k Hk Hin. apply (Hnone k Hk). by right.
    + cbn [fst]. intros Hkey. apply (Hnone key Hkey). left.
  - rewrite !strip_reserved_filter, list_filter_filter.
    apply list_filter_iff. tauto.
  - rewrite strip_reserved_filter. apply Dict_filter_wf.
Qed.

(** ** The loaded translations *)

Lemma load_translation_cases (p : path) (translations : Dict.t dict) :
  load_translation p translations
  = if is_translation p then
      if is_content (contents p)
      then mret (Dict.set translations (lang_of p)
                   (strip_reserved (content_of p)))
      else raise (read_error p)
    else mret translations.
Proof.
  unfold load_translation, is_translation, lang_of, content_of, read_error.
  destruct (_ && _); [|done]. by destruct (contents p).
Qed.


Lemma load_loop_wf (l : list path) (acc translations : Dict.t dict) :
  Dict.wf acc →
  outcome (for_in l load_translation acc) = inr translations →
  Dict.wf translations.
Proof.
  intros Hacc. apply (for_in_invariant Dict.wf); [done|].
  intros p d d' _ Hd. rewrite load_translation_cases.
  destruct (is_translation p); [|by intros [= <-]].
  destruct (is_content (contents p)); [|done].
  intros [= <-]. by apply Dict_set_wf.
Qed.

Lemma load_loop_get (l : list path) (acc translations : Dict.t dict)
    (lang : string) :
  outcome (for_in l load_translation acc) = inr translations →
  Dict.get translations lang
  = match last (filter (λ p, lang_of p = lang)
                  (filter (λ p, is_translation p = true) l)) with
    | Some p => Some (strip_reserved (content_of p))
    | None => Dict.get acc lang
    end.
Proof.
  revert acc. induction l as [|p l IH]; intros acc.
  - cbn. by intros [= <-].
  - cbn [for_in]. rewrite outcome_bind, load_translation_cases.
    rewrite (filter_cons (λ p, is_translation p = true)).
    destruct (is_translation p) eqn:Hp.
    + destruct (is_content (contents p)); [|done].
      unfold outcome at 2. cbn [mret IO_ret snd].
      intros Hloop%IH. rewrite Hloop, decide_True by done.
      rewrite filter_cons.
      destruct (decide (lang_of p = lang)) as [Hlang|Hlang].
      * rewrite last_cons. destruct (last _); [done|].
        by rewrite Dict_get_set, decide_True.
      * destruct (last _); [done|].
        by rewrite Dict_get_set, decide_False.
    + unfold outcome at 2. cbn [mret IO_ret snd].
      intros Hloop%IH. by rewrite Hloop, decide_False.
Qed.

Lemma load_tables_loop (fs : filesystem) en_us translations :
  outcome (load_tables fs) = inr (en_us, translations) →
  outcome (for_in (sorted_by_name (rglob_json fs)) load_translation [])
  = inr translations.
Proof.
  unfold load_tables. destruct (en_us_json fs); [done|done|].
  cbn [read_json_file]. rewrite mret_bind, outcome_bind.
  destruct (outcome (for_in _ _ _)); [done|]. by intros [= _ ->].
Qed.

(** X6.  The tables that [main] loads are dictionaries: no language code
    comes twice among the translations, and a translation whose file has
    distinct keys has distinct keys. *)
Theorem load_tables_wf (fs : filesystem) en_us translations :
  outcome (load_tables fs) = inr (en_us, translations) →
  Dict.wf translations
  ∧ ((∀ p, p ∈ rglob_json fs → Dict.wf (content_of p)) →
     ∀ lang data, (lang, data) ∈ translations → Dict.wf data).
Proof.
  intros Hload%load_tables_loop. split.
  - eapply load_loop_wf; [|exact Hload]. constructor.
  - intros Hwf lang data Hin.
    apply load_loop_loaded_from in Hload. rewrite Forall_forall in Hload.
    destruct (Hload _ Hin) as (p & d & Hp & _ & Hc & [= _ ->]).
    rewrite strip_reserved_filter. apply Dict_filter_wf.
    specialize (Hwf p Hp). unfold content_of in Hwf. by rewrite Hc in Hwf.
Qed.

(** X7.  The table of a language is that of the last file, in the order of
    the names, whose name less [.json] is the language, less the reserved
    keys; a language of no file has no table. *)
Theorem load_tables_last_wins (fs : filesystem) en_us translations :
  outcome (load_tables fs) = inr (en_us, translations) →
  ∀ lang,
    Dict.get translations lang
    = (λ p, strip_reserved (content_of p))
        <$> last (filter (λ p, lang_of p = lang) (translation_paths fs)).
Proof.
  intros Hload%load_tables_loop lang.
  rewrite (load_loop_get _ _ _ lang Hload). unfold translation_paths.
  by destruct (last _).
Qed.

(** ** A run that cannot read its files *)


Section unreadable.
Context (str_lower : string → string).



End unreadable.

(** ** A run that returns *)

Lemma run_all_returns_iff (l : list (IO unit)) :
  outcome (run_all l) = inr () ↔ Forall (λ m, outcome m = inr ()) l.
Proof.
  split; [|by intros ->%run_all_returns].
  destruct (run_all_cases l)
    as [Hall|(before & c & after & e & -> & Hbefore & Hc)]; [done|].
  by rewrite (run_all_first_raise _ _ _ e).
Qed.

Lemma show_translation_stats_returns en_us translations :
  (outcome (show_translation_stats en_us translations) = inr ()
   ↔ en_us ≠ [] ∨ translations = [])
  ∧ (en_us ≠ [] ∨ translations = [] →
     show_translation_stats en_us translations
     = (stats_head en_us ++ (stats_line en_us <$> translations)
        ++ [EmptyString], inr ())).
Proof.
  assert (en_us ≠ [] ∨ translations = [] →
    show_translation_stats en_us translations
    = (stats_head en_us ++ (stats_line en_us <$> translations)
       ++ [EmptyString], inr ())) as Hret.
  { intros [Hen| ->]; [by apply show_translation_stats_nonempty|done]. }
  split; [|exact Hret]. split; [|by intros ->%Hret].
  destruct en_us as [|item en_us]; [|by left].
  destruct translations as [|[lang data] translations]; [by right|].
  unfold show_translation_stats. io_simpl.
  rewrite for_each_cons. unfold true_divide. cbn [length].
  rewrite decide_True by done. by io_simpl.
Qed.

Lemma check_order_of_strings_returns en_us translations :
  (outcome (check_order_of_strings en_us translations) = inr ()
   ↔ ∀ lang data, (lang, data) ∈ translations → order_matches en_us data)
  ∧ ((∀ lang data, (lang, data) ∈ translations → order_matches en_us data) →
     check_order_of_strings en_us translations
     = (["✅ The order of strings in each translation file matches en_us.json"],
        inr ())).
Proof.
  assert ((∀ lang data, (lang, data) ∈ translations
                        → order_matches en_us data) →
    check_order_of_strings en_us translations
    = (["✅ The order of strings in each translation file matches en_us.json"],
       inr ())) as Hret.
  { intros Hall. unfold check_order_of_strings.
    rewrite for_each_silent; [done|].
    intros [lang data] Hin. rewrite decide_False; [done|].
    intros Hne. by apply Hne, (Hall lang). }
  split; [|exact Hret]. split; [|by intros ->%Hret].
  intros Hout lang data Hin.
  destruct (decide (order_matches en_us data)) as [|Hnot]; [done|].
  apply list_elem_of_split in Hin as (l1 & l2 & ->).
  destruct (first_failing (λ entry : string * dict,
              order_matches en_us entry.2) (l1 ++ (lang, data) :: l2))
    as (before & [lang' data'] & after & Heq & Hbefore & Hdata).
  { rewrite Forall_app, Forall_cons. tauto. }
  unfold check_order_of_strings in Hout. rewrite Heq in Hout.
  rewrite (for_each_silent_raise _ _ _ _ (order_error lang')) in Hout;
    [done| |].
  - intros [lang0 data0] Hin0. rewrite decide_False; [done|].
    rewrite Forall_forall in Hbefore. intros Hne. apply Hne, (Hbefore _ Hin0).
  - by rewrite decide_True.
Qed.

Lemma elem_of_untranslated_of_items intentionally_untranslated en_us lang
    (data : dict) (key : string) :
  key ∈ untranslated_of intentionally_untranslated en_us lang data
  ↔ ∃ value, (key, value) ∈ data
             ∧ Dict.get en_us key = Some value
             ∧ exempted intentionally_untranslated lang key = false.
Proof.
  unfold untranslated_of.
  rewrite elem_of_list_to_set, list_elem_of_fmap. split.
  - intros ([k v] & -> & [[Hget Hex] Hin]%list_elem_of_filter). eauto.
  - intros (value & Hin & Hen & Hex). exists (key, value).
    split; [done|]. by apply list_elem_of_filter.
Qed.

Lemma all_items_translated_existsb intentionally_untranslated en_us
    translations :
  existsb (λ entry : string * dict,
    set_nonempty (untranslated_of intentionally_untranslated en_us
                    entry.1 entry.2)) translations = false
  ↔ all_items_translated intentionally_untranslated en_us translations.
Proof.
  rewrite <-not_true_iff_false, existsb_exists. split.
  - intros Hnone lang data key value Hin Hitem Hen. apply exempted_true.
    destruct (exempted intentionally_untranslated lang key) eqn:Hex; [done|].
    destruct Hnone. exists (lang, data).
    split; [by apply list_elem_of_In|]. apply set_nonempty_true.
    intros Hempty. apply (not_elem_of_empty (C:=gset string) key).
    rewrite <-Hempty. apply elem_of_untranslated_of_items; eauto.
  - intros Hall ([lang data] & Hin%list_elem_of_In & HX%set_nonempty_true).
    apply HX. cbn [fst snd]. apply set_eq. intros key.
    rewrite elem_of_untranslated_of_items. split; [|set_solver].
    intros (value & Hitem & Hen & Hex).
    rewrite (proj2 (exempted_true _ _ _)
               (Hall lang data key value Hin Hitem Hen)) in Hex. done.
Qed.

Lemma check_untranslated_strings_returns seed exemptions en_us translations :
  keys_subset en_us translations →
  (outcome (check_untranslated_strings seed exemptions en_us translations)
     = inr ()
   ↔ ∃ intentionally_untranslated,
       exemptions = Content intentionally_untranslated
       ∧ all_items_translated intentionally_untranslated en_us translations)
  ∧ (outcome (check_untranslated_strings seed exemptions en_us translations)
       = inr () →
     check_untranslated_strings seed exemptions en_us translations
     = (["✅ No accidentally untranslated strings found"], inr ())).
Proof.
  intros Hsub. destruct exemptions as [| |intentionally_untranslated].
  - split; [|done]. split; [done|]. by intros (? & [=] & _).
  - split; [|done]. split; [done|]. by intros (? & [=] & _).
  - rewrite check_untranslated_strings_eq by done.
    pose proof (all_items_translated_existsb intentionally_untranslated
                  en_us translations) as Hall.
    destruct (existsb _ translations).
    + split; [|done]. split; [done|]. intros (iu & [= <-] & Hiu).
      by apply Hall in Hiu.
    + split; [|done]. split; [|done]. intros _.
      exists intentionally_untranslated. split; [done|]. by apply Hall.
Qed.

Section returns.
Context (str_lower : string → string).

(** X9.  Once the files are read, [main] returns exactly when the table of
    statistics can be made, no language has an extra key, the exemptions
    are read and every string that is the reference's has its language and
    key in the table of exemptions, the keys of every language come in the
    reference's order and, in wurst mode, no rule finds a known issue.  The
    report is then the table followed by one confirmation line for each
    check. *)
Theorem main_returns_iff seed fs wurst_mode en_us translations :
  outcome (load_tables fs) = inr (en_us, translations) →
  (outcome (main str_lower seed fs wurst_mode) = inr ()
   ↔ (en_us ≠ [] ∨ translations = [])
     ∧ keys_subset en_us translations
     ∧ (∃ intentionally_untranslated,
          intentionally_untranslated_json fs
            = Content intentionally_untranslated
          ∧ all_items_translated intentionally_untranslated
              en_us translations)
     ∧ (∀ lang data,
          (lang, data) ∈ translations → order_matches en_us data)
     ∧ (wurst_mode = true → no_known_issue str_lower translations))
  ∧ (outcome (main str_lower seed fs wurst_mode) = inr () →
     report (main str_lower seed fs wurst_mode)
     = stats_head en_us ++ (stats_line en_us <$> translations)
       ++ [ EmptyString;
            "✅ No extra keys found";
            "✅ No accidentally untranslated strings found";
            "✅ The order of strings in each translation file matches en_us.json" ]
       ++ (if wurst_mode
           then ["✅ No known issues found in any translation files"]
           else [])).
Proof.
  intros Hload. rewrite (main_loaded _ _ _ _ _ _ Hload).
  destruct (show_translation_stats_returns en_us translations)
    as [Hstats Hstats_eq].
  destruct (check_order_of_strings_returns en_us translations)
    as [Horder Horder_eq].
  assert (outcome (check_extra_keys seed en_us translations) = inr ()
          ↔ keys_subset en_us translations) as Hextra.
  { rewrite check_extra_keys_eq. by destruct (decide _). }
  assert (outcome (check_known_issues str_lower en_us translations) = inr ()
          ↔ no_known_issue str_lower translations) as Hknown.
  { rewrite check_known_issues_eq, <-known_issues_report_nil.
    by destruct (decide _). }
  rewrite run_all_returns_iff. unfold checks.
  rewrite Forall_app, !Forall_cons, Forall_nil.
  rewrite Hstats, Hextra, Horder.
  assert (Forall (λ m : IO (), outcome m = inr ())
            (if wurst_mode
             then [check_known_issues str_lower en_us translations] else [])
          ↔ (wurst_mode = true → no_known_issue str_lower translations))
    as ->.
  { destruct wurst_mode.
    - rewrite Forall_singleton, Hknown. tauto.
    - split; [done|constructor]. }
  split.
  - split.
    + intros [(Hs & Hsub & Hu & Ho & _) Hk].
      destruct (check_untranslated_strings_returns seed
                  (intentionally_untranslated_json fs) en_us translations
                  Hsub) as [Hiff _].
      rewrite Hiff in Hu. tauto.
    + intros (Hs & Hsub & Hu & Ho & Hk).
      destruct (check_untranslated_strings_returns seed
                  (intentionally_untranslated_json fs) en_us translations
                  Hsub) as [Hiff _].
      rewrite <-Hiff in Hu. tauto.
  - intros [(Hs & Hsub & Hu & Ho & _) Hk].
    rewrite run_all_returns.
    2:{ unfold checks. rewrite Forall_app, !Forall_cons, Forall_nil.
        rewrite Hstats, Hextra, Horder. repeat split; try done.
        destruct wurst_mode; [|constructor].
        apply Forall_singleton, Hknown. auto. }
    unfold report at 1. cbn [fst]. unfold checks.
    rewrite fmap_app, concat_app. cbn [fmap list_fmap concat].
    rewrite (Hstats_eq Hs), (Horder_eq Ho).
    rewrite (proj2 (check_untranslated_strings_returns seed _ _ _ Hsub) Hu).
    rewrite check_extra_keys_eq, decide_True by done.
    unfold report. cbn [fst]. rewrite <-!app_assoc. cbn [app].
    do 6 f_equal. destruct wurst_mode; [|done].
    cbn [fmap list_fmap concat]. rewrite check_known_issues_eq.
    rewrite decide_True; [by rewrite app_nil_r|].
    apply known_issues_report_nil. auto.
Qed.

(** X10.  Wurst mode adds one check at the end and changes nothing else:
    the run is the run without it followed by [check_known_issues] on the
    loaded tables. *)
Theorem main_wurst_mode seed fs :
  main str_lower seed fs true
  = match outcome (load_tables fs) with
    | inr (en_us, translations) =>
        main str_lower seed fs false;;
        check_known_issues str_lower en_us translations
    | inl _ => main str_lower seed fs false
    end.
Proof.
  destruct (outcome (load_tables fs)) as [e|[en_us translations]] eqn:Hload.
  - rewrite !main_eq. destruct (load_tables fs) as [lines out].
    unfold outcome in Hload. cbn [snd] in Hload. by subst out.
  - rewrite !(main_loaded _ _ _ _ _ _ Hload). unfold checks.
    cbn [app run_all]. rewrite bind_mret_unit.
    destruct (show_translation_stats _ _) as [l1 [e1|[]]]; [done|].
    destruct (check_extra_keys _ _ _) as [l2 [e2|[]]]; [done|].
    destruct (check_untranslated_strings _ _ _ _) as [l3 [e3|[]]]; [done|].
    destruct (check_order_of_strings _ _) as [l4 [e4|[]]]; [done|].
    destruct (check_known_issues _ _ _) as [l5 out5].
    cbn. by rewrite !app_nil_r, <-!app_assoc.
Qed.

End returns.

(** ** The order check on tables without extra keys *)

Lemma filter_ext_elem_of {A} (P Q : A → Prop)
    `{!∀ x, Decision (P x), !∀ x, Decision (Q x)} (l : list A) :
  (∀ x, x ∈ l → (P x ↔ Q x)) → filter P l = filter Q l.
Proof.
  induction l as [|x l IH]; intros HPQ; [done|].
  rewrite !filter_cons, IH by (intros; apply HPQ; by right).
  destruct (decide (P x)) as [HP|HP], (decide (Q x)) as [HQ|HQ]; try done;
    apply (HPQ x) in HP || apply (HPQ x) in HQ; try done; left.
Qed.

Lemma filter_all {A} (P : A → Prop) `{!∀ x, Decision (P x)} (l : list A) :
  (∀ x, x ∈ l → P x) → filter P l = l.
Proof.
  induction l as [|x l IH]; intros HP; [done|].
  rewrite filter_cons, decide_True by (apply HP; left).
  rewrite IH; [done|]. intros; apply HP; by right.
Qed.

Lemma filter_none {A} (P : A → Prop) `{!∀ x, Decision (P x)} (l : list A) :
  (∀ x, x ∈ l → ¬ P x) → filter P l = [].
Proof.
  induction l as [|x l IH]; intros HP; [done|].
  rewrite filter_cons, decide_False by (apply HP; left).
  apply IH. intros; apply HP; by right.
Qed.

(** The elements of a list without repetition that a sublist of it has are
    that sublist. *)
Lemma filter_elem_of_sublist (l k : list string) :
  NoDup k → l `sublist_of` k → filter (λ x, x ∈ l) k = l.
Proof.
  intros Hk Hsub. induction Hsub as [|x l k Hsub IH|x l k Hsub IH].
  - apply filter_none. intros x _. apply not_elem_of_nil.
  - apply NoDup_cons in Hk as [Hx Hk].
    rewrite filter_cons, decide_True by left. f_equal.
    etrans; [|exact (IH Hk)]. apply filter_ext_elem_of.
    intros y Hy. rewrite elem_of_cons. split; [|by right].
    intros [->|?]; done.
  - apply NoDup_cons in Hk as [Hx Hk].
    rewrite filter_cons, decide_False; [by apply IH|].
    intros Hin. apply Hx. by eapply sublist_subseteq.
Qed.

Lemma order_matches_sublist (en_us data : dict) :
  Dict.wf en_us →
  Dict.keys data ⊆ Dict.keys en_us →
  order_matches en_us data ↔ Dict.keys data `sublist_of` Dict.keys en_us.
Proof.
  intros Hwf Hsub. unfold order_matches.
  rewrite (filter_all (λ key, key ∈ Dict.keys en_us) (Dict.keys data))
    by done.
  split.
  - intros <-. apply sublist_filter.
  - intros Hsl. by apply filter_elem_of_sublist.
Qed.

(** X11.  On tables without extra keys, and a reference with distinct keys,
    [check_order_of_strings] returns exactly when the keys of every
    language are, in their order, a subsequence of the reference's keys. *)
Theorem check_order_of_strings_sublist en_us translations :
  Dict.wf en_us →
  keys_subset en_us translations →
  outcome (check_order_of_strings en_us translations) = inr ()
  ↔ ∀ lang data,
      (lang, data) ∈ translations →
      Dict.keys data `sublist_of` Dict.keys en_us.
Proof.
  intros Hwf Hsub.
  destruct (check_order_of_strings_returns en_us translations) as [-> _].
  split; intros Hall lang data Hin.
  - apply order_matches_sublist; eauto.
  - apply order_matches_sublist; eauto.
Qed.

(** ** Following the guidance of the untranslated-strings check *)

(** X12.  The remedy that [check_untranslated_strings] prints works: with
    an exemption table that keeps the old exemptions and has, for every
    language, the keys that the check listed for it, the check returns. *)
Theorem exemptions_remedy seed intentionally_untranslated
    intentionally_untranslated' en_us translations :
  keys_subset en_us translations →
  (∀ lang key,
     exempted intentionally_untranslated lang key = true →
     exempted intentionally_untranslated' lang key = true) →
  (∀ lang data key,
     (lang, data) ∈ translations →
     key ∈ set_iter seed
             (untranslated_of intentionally_untranslated en_us lang data) →
     exempted intentionally_untranslated' lang key = true) →
  check_untranslated_strings seed (Content intentionally_untranslated')
    en_us translations
  = (["✅ No accidentally untranslated strings found"], inr ()).
Proof.
  intros Hsub Hold Hlisted.
  rewrite check_untranslated_strings_eq by done.
  rewrite (proj2 (all_items_translated_existsb intentionally_untranslated'
                    en_us translations)); [done|].
  intros lang data key value Hin Hitem Hen. apply exempted_true.
  destruct (exempted intentionally_untranslated lang key) eqn:Hex;
    [by apply Hold|].
  apply (Hlisted lang data key Hin).
  apply set_iter_elem_of, elem_of_untranslated_of_items. eauto.
Qed.

(** ** What the checks of keys read *)

Lemma for_in_Forall2 {A S} (body body' : A → S → IO S) (l l' : list A)
    (s : S) :
  Forall2 (λ x y, ∀ s, body x s = body' y s) l l' →
  for_in l body s = for_in l' body' s.
Proof.
  intros Hll'. revert s.
  induction Hll' as [|x y l l' Hxy _ IH]; intros s; [done|].
  cbn [for_in]. rewrite Hxy. apply bind_ext. intros s' _. apply IH.
Qed.

(** X13.  [check_extra_keys] and [check_order_of_strings] read keys only:
    on two references with the same keys and two translation maps with the
    same languages and keys, whatever the strings, each gives the same
    report and the same outcome. *)
Theorem key_checks_ignore_values seed en_us en_us' translations translations' :
  Dict.keys en_us = Dict.keys en_us' →
  same_keys translations translations' →
  check_extra_keys seed en_us translations
    = check_extra_keys seed en_us' translations'
  ∧ check_order_of_strings en_us translations
    = check_order_of_strings en_us' translations'.
Proof.
  intros Hen Htr. split.
  - unfold check_extra_keys. f_equal. apply for_in_Forall2.
    eapply Forall2_impl; [exact Htr|].
    intros [lang data] [lang' data'] [Hlang Hkeys] found.
    cbn [fst snd] in *. by rewrite Hen, Hkeys, Hlang.
  - unfold check_order_of_strings. f_equal. unfold for_each.
    apply for_in_Forall2.
    eapply Forall2_impl; [exact Htr|].
    intros [lang data] [lang' data'] [Hlang Hkeys] [].
    cbn [fst snd] in *. by rewrite Hen, Hkeys, Hlang.
Qed.

(** ** The substring test and the two decimals *)

Lemma prefix_length (needle hay : string) :
  String.prefix needle hay = true →
  (String.length needle ≤ String.length hay)%nat.
Proof.
  intros [rest ->]%prefix_spec. rewrite string_length_app. lia.
Qed.

(** X14.  The test [needle in hay] holds exactly when [hay] is some string,
    then [needle], then some string.  So the empty string is in every
    string, and no string is in a shorter one. *)
Theorem contains_spec (needle hay : string) :
  (Str.contains needle hay = true ↔ occurs needle hay)
  ∧ Str.contains EmptyString hay = true
  ∧ ((String.length hay < String.length needle)%nat →
     Str.contains needle hay = false).
Proof.
  split; [apply contains_occurs|]. split.
  - apply contains_occurs. by exists EmptyString, hay.
  - intros Hlen. apply not_true_iff_false.
    intros (before & after & ->)%contains_occurs.
    rewrite !string_length_app in Hlen. lia.
Qed.

(** X15.  The percentage is printed to the nearest hundredth: the integer
    that [format_2f] prints over a hundred is within a half of a hundred
    times the float [m * 2^e]; it is exact when the float is an integer, and
    on a tie it is even. *)
Theorem round_half_even_spec (m e : Z) :
  ((0 ≤ e)%Z → Float.round_half_even m e = (m * 2 ^ e)%Z)
  ∧ ((e < 0)%Z →
     (2 * Z.abs (Float.round_half_even m e * 2 ^ (- e) - m) ≤ 2 ^ (- e))%Z
     ∧ ((2 * Z.abs (Float.round_half_even m e * 2 ^ (- e) - m)
         = 2 ^ (- e))%Z →
        Z.even (Float.round_half_even m e) = true)).
Proof.
  split; [apply round_half_even_exact|].
  intros He. split; [by apply round_half_even_nearest|].
  unfold Float.round_half_even. rewrite decide_False by lia.
  assert (0 < 2 ^ (- e))%Z as Hd by (apply Z.pow_pos_nonneg; lia).
  pose proof (Z.div_mod m (2 ^ (- e)) ltac:(lia)) as Hm.
  pose proof (Z.mod_pos_bound m (2 ^ (- e)) Hd) as Hr.
  set (d := (2 ^ (- e))%Z) in *.
  set (q := (m `div` d)%Z) in *. set (r := (m `mod` d)%Z) in *.
  destruct (Z.compare_spec (2 * r) d) as [Heq|Hlt|Hgt].
  - destruct (Z.even q) eqn:Hq; [done|]. intros _.
    rewrite Z.even_add, Hq. done.
  - intros Htie. nia.
  - intros Htie. nia.
Qed.

(** ** The further properties on examples *)

(** A table with a typo. *)
Lemma check_known_issues_spec_witness :
  check_known_issues Str.lower [] [("de", [("k", "Nofall an")])]
  = (([("de", [("k", "Nofall an")])] ≫= typos_report)
       ++ ([("de", [("k", "Nofall an")])]
             ≫= λ entry, boatfly_report Str.lower entry ++ radar_report entry),
     inl (Exception "Found known issues in one or more translation files")).
Proof.
  destruct (check_known_issues_spec Str.lower []
              [("de", [("k", "Nofall an")])]) as (_ & _ & Hfails & _).
  apply Hfails. intros Hnone.
  destruct (Hnone "de" [("k", "Nofall an")]) as (Htypos & _); [left|].
  apply (Htypos "k" "Nofall an" "Nofall" "NoFall"); [left| |].
  - apply (bool_decide_unpack _). vm_compute. exact I.
  - by exists EmptyString, " an".
Defined.

(** A boatfly string that tells to press shift. *)
Lemma boatfly_rule_witness :
  outcome (check_known_issues Str.lower []
             [("de", [(boatfly_key, "Mit SHIFT sinken")])])
  = inl (Exception "Found known issues in one or more translation files").
Proof.
  destruct (boatfly_rule Str.lower []
              [("de", [(boatfly_key, "Mit SHIFT sinken")])] "de")
    as (Hiff & Hraises).
  apply Hraises, Hiff.
  exists [(boatfly_key, "Mit SHIFT sinken")], "Mit SHIFT sinken".
  split; [left|]. split; [reflexivity|]. by exists "mit ", " sinken".
Defined.

(** The language of [fr_fr.json]. *)
Lemma removesuffix_spec_witness : Str.removesuffix ".json" "fr_fr.json" = "fr_fr".
Proof.
  destruct (removesuffix_spec ".json" "fr_fr.json") as (Hstem & _).
  by apply Hstem.
Defined.

(** A table without reserved keys. *)
Lemma strip_reserved_spec_witness :
  strip_reserved [("a", "X"); ("b", "Y")] = [("a", "X"); ("b", "Y")].
Proof.
  destruct (strip_reserved_spec [("a", "X"); ("b", "Y")])
    as (_ & _ & Hnone & _).
  apply Hnone. intros key Hkey.
  apply (bool_decide_unpack _).
  unfold reserved_keys in Hkey.
  repeat (apply elem_of_cons in Hkey as [->|Hkey]; [by vm_compute|]).
  by apply elem_of_nil in Hkey.
Defined.

(** Two files of one name, as in two directories. *)
Lemma load_tables_wf_witness :
  Dict.wf [("de_de", [("a", "Z")]); ("fr_fr", [("a", "U")])].
Proof.
  eapply (load_tables_wf
            (FileSystem
               (Content [("a", "X")])
               [Path "fr_fr.json" true (Content [("a", "U")]);
                Path "de_de.json" true (Content [("a", "Y")]);
                Path "de_de.json" true
                  (Content [("language.code", "de_de"); ("a", "Z")])]
               (Content []))
            [("a", "X")]).
  vm_compute. reflexivity.
Defined.

Lemma load_tables_last_wins_witness :
  Dict.get [("de_de", [("a", "Z")]); ("fr_fr", [("a", "U")])] "de_de"
  = (λ p, strip_reserved (content_of p))
      <$> last (filter (λ p, lang_of p = "de_de")
                  (translation_paths
                     (FileSystem
                        (Content [("a", "X")])
                        [Path "fr_fr.json" true (Content [("a", "U")]);
                         Path "de_de.json" true (Content [("a", "Y")]);
                         Path "de_de.json" true
                           (Content [("language.code", "de_de"); ("a", "Z")])]
                        (Content [])))).
Proof.
  apply (load_tables_last_wins _ [("a", "X")]).
  vm_compute. reflexivity.
Defined.


(** A run on one complete translation, whose string for [a] is the
    reference's and in the table of exemptions. *)
Lemma main_returns_iff_witness :
  report (main Str.lower seed_fwd
            (FileSystem
               (Content [("a", "X"); ("b", "Y")])
               [Path "fr_fr.json" true (Content [("a", "X"); ("b", "V")])]
               (Content [("fr_fr", ["a"])]))
            true)
  = [ "| Language | Translated | % |";
      "| --- | --- | --- |";
      "| en_us | 2 | 100.00% |";
      "| fr_fr | 2 | 100.00% |";
      EmptyString;
      "✅ No extra keys found";
      "✅ No accidentally untranslated strings found";
      "✅ The order of strings in each translation file matches en_us.json";
      "✅ No known issues found in any translation files" ].
Proof.
  destruct (main_returns_iff Str.lower seed_fwd
              (FileSystem
                 (Content [("a", "X"); ("b", "Y")])
                 [Path "fr_fr.json" true (Content [("a", "X"); ("b", "V")])]
                 (Content [("fr_fr", ["a"])]))
              true
              [("a", "X"); ("b", "Y")]
              [("fr_fr", [("a", "X"); ("b", "V")])]) as (_ & Hreport).
  - vm_compute. reflexivity.
  - rewrite Hreport; [|vm_compute; reflexivity]. vm_compute. reflexivity.
Defined.

(** A language with the first and the last key of the reference. *)
Lemma check_order_of_strings_sublist_witness :
  outcome (check_order_of_strings
             [("a", "X"); ("b", "Y"); ("c", "Z")]
             [("es", [("a", "1"); ("c", "2")])])
  = inr ().
Proof.
  apply check_order_of_strings_sublist.
  - apply (bool_decide_unpack _). vm_compute. exact I.
  - apply (bool_decide_unpack _). vm_compute. exact I.
  - intros lang data [[= -> ->]|[]%elem_of_nil]%elem_of_cons.
    cbn. apply sublist_skip, sublist_cons, sublist_skip, sublist_nil.
Defined.

(** The key that the check listed, added to the exemptions. *)
Lemma exemptions_remedy_witness :
  check_untranslated_strings seed_fwd (Content [("fr", ["a"])])
    [("a", "X"); ("b", "Y")] [("fr", [("a", "X"); ("b", "V")])]
  = (["✅ No accidentally untranslated strings found"], inr ()).
Proof.
  apply (exemptions_remedy seed_fwd []).
  - apply (bool_decide_unpack _). vm_compute. exact I.
  - intros lang key [=].
  - intros lang data key [[= -> ->]|[]%elem_of_nil]%elem_of_cons Hkey.
    vm_compute in Hkey. apply list_elem_of_singleton in Hkey as ->.
    reflexivity.
Defined.

(** Two translations of the same keys. *)
Lemma key_checks_ignore_values_witness :
  check_extra_keys seed_fwd [("a", "X")] [("de", [("a", "Y"); ("c", "W")])]
    = check_extra_keys seed_fwd [("a", "U")] [("de", [("a", "V"); ("c", "T")])]
  ∧ check_order_of_strings [("a", "X")] [("de", [("a", "Y"); ("c", "W")])]
    = check_order_of_strings [("a", "U")] [("de", [("a", "V"); ("c", "T")])].
Proof.
  apply key_checks_ignore_values; [reflexivity|].
  by repeat constructor.
Defined.

(** A typo that is longer than the string. *)
Lemma contains_spec_witness : Str.contains "Nofall" "No" = false.
Proof.
  destruct (contains_spec "Nofall" "No") as (_ & _ & Hshort).
  apply Hshort. cbn. lia.
Defined.

(** The float [0.125], of mantissa [2^52] and exponent [-55], times a
    hundred: a tie between 12 and 13 hundredths. *)
Lemma round_half_even_spec_witness :
  Z.even (Float.round_half_even (25 * 2 ^ 53) (- 54)) = true.
Proof.
  destruct (round_half_even_spec (25 * 2 ^ 53) (- 54)) as (_ & Hfrac).
  destruct Hfrac as (_ & Htie); [lia|].
  apply Htie. vm_compute. reflexivity.
Defined.
